(** * Bridge event listener: scan, validate, act

    A shallow embedding of [script.py]: the [BridgeEventListener] class with
    its oracle validation, its simulated destination-chain action, its
    per-event pipeline and the polling loop of [listen].

    The outside world (the RPC node, the oracle's HTTP endpoint) is not
    computed: each call to it takes the answer of the world as an argument,
    and leaves a record of the call in a trace of observable effects, next to
    the log lines the script writes.  The mutable [processed_txs] set is the
    state threaded through all methods. *)

From Stdlib Require Import ZArith Strings.Byte Strings.Ascii Strings.String.
From stdpp Require Import base gmap sets strings list.

Set Warnings "-register-all,-clear-no-such-hyp".

Local Open Scope string_scope.
Local Open Scope list_scope.
Local Open Scope Z_scope.

(** ** Exceptions *)

(** The exception classes the script tells apart in its [except] clauses,
    and those that its own expressions raise. *)
Inductive exn : Type :=
| RequestException (detail : string)
    (* requests.exceptions.RequestException and its subclasses:
       ConnectionError, Timeout, and requests' own JSONDecodeError *)
| StaleBlockchain
| BadFunctionCallOutput
| ContractLogicError
| AttributeError
| TypeError
| ValueError
| OtherException (cls : string).

Definition is_request_exception (e : exn) : bool :=
  match e with RequestException _ => true | _ => false end.

(** [except (StaleBlockchain, BadFunctionCallOutput, ContractLogicError)] *)
Definition is_web3_error (e : exn) : bool :=
  match e with
  | StaleBlockchain | BadFunctionCallOutput | ContractLogicError => true
  | _ => false
  end.

(** ** JSON values and Python truthiness *)

(** What [response.json()] returns, and what [json=payload] sends.  Numbers
    are the integers; an object keeps its members in document order. *)
Inductive json : Type :=
| JNull
| JBool (b : bool)
| JNum (z : Z)
| JStr (s : string)
| JArr (items : list json)
| JObj (members : list (string * json)).

(** [bool(x)] on the Python value decoded from a JSON value. *)
Definition truthy (j : json) : bool :=
  match j with
  | JNull => false
  | JBool b => b
  | JNum z => negb (z =? 0)
  | JStr s => negb (bool_decide (s = EmptyString))
  | JArr items => match items with [] => false | _ => true end
  | JObj members => match members with [] => false | _ => true end
  end.

(** [d.get(key, default)] on the dict decoded from a JSON object: of two
    members with one key the decoder keeps the later. *)
Fixpoint dict_get (members : list (string * json)) (key : string) (default : json) : json :=
  match members with
  | [] => default
  | (k, v) :: rest =>
      if bool_decide (k = key) then dict_get rest key v else dict_get rest key default
  end.

(** ** Bytes and their hexadecimal rendering *)

Definition hex_digit (n : N) : ascii :=
  match n with
  | 0 => "0" | 1 => "1" | 2 => "2" | 3 => "3" | 4 => "4" | 5 => "5"
  | 6 => "6" | 7 => "7" | 8 => "8" | 9 => "9" | 10 => "a" | 11 => "b"
  | 12 => "c" | 13 => "d" | 14 => "e" | _ => "f"
  end%N%char.

(** [bytes.hex()]: two lowercase digits per byte, high nibble first.  Some
    versions of web3's [HexBytes] put [0x] before the digits; that prefix is
    the same for every hash and is left out. *)
Fixpoint hex (bs : list byte) : string :=
  match bs with
  | [] => EmptyString
  | b :: rest =>
      String (hex_digit (Byte.to_N b / 16)) (String (hex_digit (Byte.to_N b mod 16)) (hex rest))
  end.

(** ** Configuration *)

Record source_chain_config : Type := {
  src_name : string;
  src_rpc_url : string;
  bridge_contract_address : string;
  event_name : string
}.

Record destination_chain_config : Type := {
  dst_name : string;
  dst_rpc_url : string;
  token_mint_contract_address : string
}.

(** The two keys of ["oracle_api"] are read with [.get]: both may be absent. *)
Record oracle_api_config : Type := {
  url : option string;
  api_key : option string
}.

(** Keys read with [config[...]] are fields; ["oracle_api"], read with
    [config.get("oracle_api", {})], may be absent. *)
Record Config : Type := {
  source_chain : source_chain_config;
  destination_chain : destination_chain_config;
  bridge_contract_abi : string;
  oracle_api : option oracle_api_config
}.

(** ** Events *)

(** [args['recipient']] is rendered with [.hex()] when it is [bytes] and
    taken as it is otherwise. *)
Inductive recipient_value : Type :=
| RecipientBytes (bs : list byte)
| RecipientText (s : string).

(** One decoded [TokensLocked] log.  [amount] is the decoding of a
    [uint256]. *)
Record event_args : Type := {
  recipient : recipient_value;
  amount : Z
}.

Record event_data : Type := {
  transactionHash : list byte;
  args : event_args
}.

(** ** The oracle's HTTP answer *)

Inductive json_result : Type :=
| JsonRaises (e : exn)        (* the body does not decode *)
| JsonValue (j : json).

Record response : Type := {
  status_code : Z;
  json_body : json_result;    (* the outcome of [response.json()] *)
  text : string
}.

(** The outcome of [requests.post(...)]. *)
Inductive post_result : Type :=
| PostRaises (e : exn)
| PostReturns (r : response).

(** ** Observable effects *)

Inductive level : Type := DEBUG | INFO | WARNING | ERROR | CRITICAL.

(** One constructor per log line of the script, with the values its
    f-string interpolates. *)
Inductive message : Type :=
| OracleNotConfigured
| ValidatingWithOracle (tx_hash : string)
| OracleValidationSuccessful (tx_hash : string)
| OracleValidationFailed (tx_hash : string) (status : Z) (body : string)
| OracleUnreachable (e : exn)
| Separator
| MintInitiating (dest_chain_name : string)
| MintSourceTxHash (tx_hash : string)
| MintRecipient (dest_chain_name : string) (recipient : string)
| MintAmount (amount : Z)
| MintAction (contract : string)
| SkippingProcessed (tx_hash : string)
| NewEventFound (event : string) (tx_hash : string)
| ValidationFailedNoAction (tx_hash : string)
| ContractNotInitialized
| StartingListener (event : string)
| InitialBlockUnavailable
| LatestBlockUnavailable
| NoNewBlocks (latest_block : Z)
| ScanningBlocks (from_block to_block : Z)
| Web3RelatedError (e : exn)
| UnexpectedError (e : exn).

Inductive effect : Type :=
| Log (lvl : level) (msg : message)
| HttpPost (target : string) (payload : json) (headers : list (string * string)) (timeout : Z)
| GetLatestBlockNumber
| GetLogs (event : string) (fromBlock toBlock : Z)
| Sleep (seconds : Z).

(** ** The monad of the listener's methods

    A method reads and updates [processed_txs], may raise, and emits
    effects.  What was done before a [raise] stays done. *)
Definition M (A : Type) : Type :=
  gset string → (exn + A) * gset string * list effect.

Definition ret {A} (a : A) : M A := λ s, (inr a, s, []).

Definition raise {A} (e : exn) : M A := λ s, (inl e, s, []).

Definition bind {A B} (m : M A) (k : A → M B) : M B :=
  λ s,
    match m s with
    | (inl e, s1, t1) => (inl e, s1, t1)
    | (inr a, s1, t1) =>
        match k a s1 with
        | (r, s2, t2) => (r, s2, t1 ++ t2)
        end
    end.

Definition emit (x : effect) : M unit := λ s, (inr tt, s, [x]).

Definition logging (lvl : level) (msg : message) : M unit := emit (Log lvl msg).

Definition is_processed (tx_hash : string) : M bool :=
  λ s, (inr (bool_decide (tx_hash ∈ s)), s, []).

Definition mark_processed (tx_hash : string) : M unit :=
  λ s, (inr tt, {[ tx_hash ]} ∪ s, []).

Declare Scope listener_scope.
Delimit Scope listener_scope with listener.
Notation "x <- m ;; k" := (bind m (λ x, k))
  (at level 100, m at next level, right associativity) : listener_scope.
Notation "m ;; k" := (bind m (λ _, k))
  (at level 100, right associativity) : listener_scope.
Local Open Scope listener_scope.

(** Projections of a run. *)
Definition result_of {A} (r : (exn + A) * gset string * list effect) : exn + A := r.1.1.
Definition state_of {A} (r : (exn + A) * gset string * list effect) : gset string := r.1.2.
Definition trace_of {A} (r : (exn + A) * gset string * list effect) : list effect := r.2.

(** ** BridgeEventListener *)

Section Listener.

Variable config : Config.

(** [api_config.get("url")] on [config.get("oracle_api", {})]. *)
Definition oracle_url : option string :=
  match oracle_api config with
  | None => None
  | Some api_config => url api_config
  end.

(** [api_config.get("api_key", <empty string>)] *)
Definition oracle_api_key : string :=
  match oracle_api config with
  | None => EmptyString
  | Some api_config => default EmptyString (api_key api_config)
  end.

(** The [payload] dict of [_validate_with_oracle], as [json=] sends it. *)
Definition oracle_payload (event : event_data) : json :=
  JObj [ ("transactionHash", JStr (hex (transactionHash event)));
         ("sourceChain", JStr (src_name (source_chain config)));
         ("amount", JNum (amount (args event))) ].

Definition oracle_headers : list (string * string) :=
  [ ("x-api-key", oracle_api_key) ].

(** The body of the [try] in [_validate_with_oracle], after the POST
    returned [r]. *)
Definition check_oracle_response (tx_hash : string) (r : response) : M bool :=
  if status_code r =? 200 then
    match json_body r with
    | JsonRaises e => raise e
    | JsonValue (JObj members) =>
        if truthy (dict_get members "isValid" (JBool false)) then
          logging INFO (OracleValidationSuccessful tx_hash);;
          ret true
        else
          logging WARNING (OracleValidationFailed tx_hash (status_code r) (text r));;
          ret false
    | JsonValue _ => raise AttributeError      (* no [.get] on it *)
    end
  else
    logging WARNING (OracleValidationFailed tx_hash (status_code r) (text r));;
    ret false.

(** [try: ... except requests.exceptions.RequestException] *)
Definition except_request_exception (body : M bool) : M bool :=
  λ s,
    match body s with
    | (inl e, s1, t1) =>
        if is_request_exception e then
          (inr false, s1, t1 ++ [Log ERROR (OracleUnreachable e)])
        else (inl e, s1, t1)
    | done => done
    end.

(** [reply] is the answer of the oracle endpoint to this call. *)
Definition _validate_with_oracle (event_data : event_data) (reply : post_result) : M bool :=
  match oracle_url with
  | None | Some EmptyString =>
      logging WARNING OracleNotConfigured;;
      ret true
  | Some target =>
      let tx_hash := hex (transactionHash event_data) in
      logging INFO (ValidatingWithOracle tx_hash);;
      except_request_exception
        (emit (HttpPost target (oracle_payload event_data) oracle_headers 10);;
         match reply with
         | PostRaises e => raise e
         | PostReturns r => check_oracle_response tx_hash r
         end)
  end.

Definition render_recipient (r : recipient_value) : string :=
  match r with
  | RecipientBytes bs => hex bs
  | RecipientText s => s
  end.

Definition _initiate_destination_chain_action (event_data : event_data) : M unit :=
  let args := args event_data in
  let tx_hash := hex (transactionHash event_data) in
  let recipient := render_recipient (recipient args) in
  let amount := amount args in
  let dest_chain_name := dst_name (destination_chain config) in
  logging INFO Separator;;
  logging INFO (MintInitiating dest_chain_name);;
  logging INFO (MintSourceTxHash tx_hash);;
  logging INFO (MintRecipient dest_chain_name recipient);;
  logging INFO (MintAmount amount);;
  logging INFO (MintAction (token_mint_contract_address (destination_chain config)));;
  logging INFO Separator;;
  mark_processed tx_hash.

Definition _process_event (event : event_data) (reply : post_result) : M unit :=
  let tx_hash := hex (transactionHash event) in
  seen <- is_processed tx_hash;;
  if seen : bool then
    logging DEBUG (SkippingProcessed tx_hash)
  else
    logging INFO (NewEventFound (event_name (source_chain config)) tx_hash);;
    valid <- _validate_with_oracle event reply;;
    if valid : bool then
      _initiate_destination_chain_action event
    else
      logging WARNING (ValidationFailedNoAction tx_hash).

End Listener.

(** ** The polling loop *)

(** What the source node answers during one iteration of [while True]:
    [latest_block_reply] is the value of [get_latest_block_number()], which
    is [None] on any RPC failure; [get_logs_reply] is the outcome of
    [get_logs(fromBlock, toBlock)], each log with the oracle's answer to
    the validation call made for it, should one be made. *)
Record cycle_world : Type := {
  latest_block_reply : option Z;
  get_logs_reply : exn + list (event_data * post_result)
}.

(** How the body of the [try] is left when it does not raise. *)
Inductive try_exit : Type :=
| Continue        (* [continue]: the [sleep] after the [try] is skipped *)
| FallThrough.

Record Contract : Type := {
  address : string;
  abi : string
}.

Section Listen.

Variable config : Config.
Variable bridge_contract : option Contract.
Variables poll_interval block_range : Z.

(** [for event in event_filter: self._process_event(event)] *)
Fixpoint process_events (event_filter : list (event_data * post_result)) : M unit :=
  match event_filter with
  | [] => ret tt
  | (event, reply) :: rest =>
      _process_event config event reply;;
      process_events rest
  end.

Definition from_block_of (last_scanned_block : Z) : Z := last_scanned_block + 1.

Definition to_block_of (last_scanned_block latest_block : Z) : Z :=
  Z.min latest_block (from_block_of last_scanned_block + block_range).

(** The body of the [try] of one iteration; its value is the way it is
    left and the value of [last_scanned_block] then. *)
Definition scan_attempt (w : cycle_world) (last_scanned_block : Z) : M (try_exit * Z) :=
  emit GetLatestBlockNumber;;
  match latest_block_reply w with
  | None =>
      logging WARNING LatestBlockUnavailable;;
      emit (Sleep (poll_interval * 2));;
      ret (Continue, last_scanned_block)
  | Some latest_block =>
      let from_block := from_block_of last_scanned_block in
      let to_block := to_block_of last_scanned_block latest_block in
      if from_block >? latest_block then
        logging INFO (NoNewBlocks latest_block);;
        emit (Sleep poll_interval);;
        ret (Continue, last_scanned_block)
      else
        logging INFO (ScanningBlocks from_block to_block);;
        emit (GetLogs (event_name (source_chain config)) from_block to_block);;
        match get_logs_reply w with
        | inl e => raise e
        | inr event_filter =>
            process_events event_filter;;
            ret (FallThrough, to_block)
        end
  end.

(** The two [except] clauses of the loop. *)
Definition handler_log (e : exn) : effect :=
  if is_web3_error e then Log WARNING (Web3RelatedError e)
  else Log ERROR (UnexpectedError e).

(** One iteration of [while True]; its value is [last_scanned_block] at
    the end of the iteration.  [time.sleep] is taken here with an argument
    it accepts; [listen_cycle_checked] below has the sleep that raises. *)
Definition listen_cycle (w : cycle_world) (last_scanned_block : Z) : M Z :=
  λ s,
    match scan_attempt w last_scanned_block s with
    | (inl e, s1, t1) =>
        (inr last_scanned_block, s1, t1 ++ [handler_log e; Sleep poll_interval])
    | (inr (Continue, last), s1, t1) => (inr last, s1, t1)
    | (inr (FallThrough, last), s1, t1) => (inr last, s1, t1 ++ [Sleep poll_interval])
    end.

(** The loop over the answers of as many iterations as [ws] has. *)
Fixpoint listen_loop (ws : list cycle_world) (last_scanned_block : Z) : M Z :=
  match ws with
  | [] => ret last_scanned_block
  | w :: rest =>
      last <- listen_cycle w last_scanned_block;;
      listen_loop rest last
  end.

(** [listen]: [initial_reply] is the first answer of
    [get_latest_block_number()]; [None - 1] raises and the listener
    gives up.  The value is [last_scanned_block] after the iterations of
    [ws], if the loop was entered. *)
Definition listen (initial_reply : option Z) (ws : list cycle_world) : M (option Z) :=
  match bridge_contract with
  | None =>
      logging CRITICAL ContractNotInitialized;;
      ret None
  | Some _ =>
      logging INFO (StartingListener (event_name (source_chain config)));;
      emit GetLatestBlockNumber;;
      match initial_reply with
      | None =>
          logging CRITICAL InitialBlockUnavailable;;
          ret None
      | Some latest =>
          last <- listen_loop ws (latest - 1);;
          ret (Some last)
      end
  end.

End Listen.

(** ** Reading a trace *)

(** The line of [_initiate_destination_chain_action] that names the source
    transaction: one per invocation of the action. *)
Definition is_action_for (tx_hash : string) (x : effect) : bool :=
  match x with
  | Log INFO (MintSourceTxHash h) => bool_decide (h = tx_hash)
  | _ => false
  end.

Definition is_action (x : effect) : bool :=
  match x with
  | Log INFO (MintSourceTxHash _) => true
  | _ => false
  end.

Definition is_validator_call (x : effect) : bool :=
  match x with
  | HttpPost _ _ _ _ => true
  | _ => false
  end.

Definition count (p : effect → bool) (t : list effect) : nat :=
  length (List.filter p t).

(** How often the destination-chain action was invoked for [tx_hash]. *)
Definition action_invocations (tx_hash : string) (t : list effect) : nat :=
  count (is_action_for tx_hash) t.

(** The block ranges asked of [get_logs], in order. *)
Fixpoint fetched_ranges (t : list effect) : list (Z * Z) :=
  match t with
  | [] => []
  | GetLogs _ from_block to_block :: rest => (from_block, to_block) :: fetched_ranges rest
  | _ :: rest => fetched_ranges rest
  end.

(** The events the pipeline was entered for, in order: each entry writes
    either the skip line or the new-event line. *)
Fixpoint visited (t : list effect) : list string :=
  match t with
  | [] => []
  | Log DEBUG (SkippingProcessed h) :: rest => h :: visited rest
  | Log INFO (NewEventFound _ h) :: rest => h :: visited rest
  | _ :: rest => visited rest
  end.

(** The answers of the oracle on which [_validate_with_oracle] returns
    [True] when it makes the call. *)
Definition oracle_accepts (reply : post_result) : bool :=
  match reply with
  | PostReturns r =>
      (status_code r =? 200) &&
      match json_body r with
      | JsonValue (JObj members) => truthy (dict_get members "isValid" (JBool false))
      | _ => false
      end
  | PostRaises _ => false
  end.

(** The key of [processed_txs] for an event. *)
Definition tx_hash_of (event : event_data) : string := hex (transactionHash event).

(** The lines one invocation of the action writes. *)
Definition action_trace (config : Config) (event : event_data) : list effect :=
  [ Log INFO Separator;
    Log INFO (MintInitiating (dst_name (destination_chain config)));
    Log INFO (MintSourceTxHash (tx_hash_of event));
    Log INFO (MintRecipient (dst_name (destination_chain config))
                (render_recipient (recipient (args event))));
    Log INFO (MintAmount (amount (args event)));
    Log INFO (MintAction (token_mint_contract_address (destination_chain config)));
    Log INFO Separator ].

(** The four ways through [_process_event]. *)
Inductive pipeline_path (config : Config) (event : event_data) (reply : post_result)
    (s : gset string) : Prop :=
| path_seen :
    tx_hash_of event ∈ s → pipeline_path config event reply s
| path_accepted :
    tx_hash_of event ∉ s →
    result_of (_validate_with_oracle config event reply s) = inr true →
    pipeline_path config event reply s
| path_rejected :
    tx_hash_of event ∉ s →
    result_of (_validate_with_oracle config event reply s) = inr false →
    pipeline_path config event reply s
| path_raised (e : exn) :
    tx_hash_of event ∉ s →
    result_of (_validate_with_oracle config event reply s) = inl e →
    pipeline_path config event reply s.

(** [processed_txs] and the trace agree when the action was invoked once
    for each member of the set and never for another hash. *)
Definition consistent (s : gset string) (t : list effect) : Prop :=
  ∀ tx, action_invocations tx t = if bool_decide (tx ∈ s) then 1%nat else 0%nat.

(** A method keeps that agreement, whatever was done before it. *)
Definition preserves {A} (m : M A) : Prop :=
  ∀ s t, consistent s t → consistent (state_of (m s)) (t ++ trace_of (m s)).

(** A method never removes a hash from [processed_txs]. *)
Definition grows {A} (m : M A) : Prop :=
  ∀ s, s ⊆ state_of (m s).

(** The effects that open a scan of the blocks after [last]. *)
Definition scan_prefix (config : Config) (block_range last latest_block : Z) : list effect :=
  [ GetLatestBlockNumber;
    Log INFO (ScanningBlocks (from_block_of last) (to_block_of block_range last latest_block));
    GetLogs (event_name (source_chain config))
      (from_block_of last) (to_block_of block_range last latest_block) ].

(** The ways through one iteration of the loop. *)
Inductive cycle_path (w : cycle_world) (last : Z) : Prop :=
| path_rpc_failure :
    latest_block_reply w = None → cycle_path w last
| path_no_new_blocks (latest_block : Z) :
    latest_block_reply w = Some latest_block → latest_block ≤ last → cycle_path w last
| path_fetch_failed (latest_block : Z) (e : exn) :
    latest_block_reply w = Some latest_block → last < latest_block →
    get_logs_reply w = inl e → cycle_path w last
| path_scanned (latest_block : Z) (event_filter : list (event_data * post_result)) :
    latest_block_reply w = Some latest_block → last < latest_block →
    get_logs_reply w = inr event_filter → cycle_path w last.

(** The answers of the oracle on which the code does not confirm an event:
    a transport error or timeout, a status other than 200, a body that is not
    a JSON object, and an object whose [isValid] is not truthy.  The last
    case is the test the code makes, [bool(...get("isValid", False))]; an
    [isValid] that is truthy without being [true] is not among these answers
    (see [spec_accepts] for the test of the specification). *)
Inductive validation_fails : post_result → Prop :=
| fails_transport (e : exn) :
    validation_fails (PostRaises e)
| fails_status (r : response) :
    status_code r ≠ 200 → validation_fails (PostReturns r)
| fails_undecodable (r : response) (e : exn) :
    json_body r = JsonRaises e → validation_fails (PostReturns r)
| fails_not_object (r : response) (j : json) :
    json_body r = JsonValue j → (∀ members, j ≠ JObj members) →
    validation_fails (PostReturns r)
| fails_rejected (r : response) (members : list (string * json)) :
    json_body r = JsonValue (JObj members) →
    truthy (dict_get members "isValid" (JBool false)) = false →
    validation_fails (PostReturns r).

(** The success of a validation in the words of the specification: HTTP
    200 with the body field [isValid] equal to [true]; any other status, a
    malformed body and a transport error are rejections. *)
Definition spec_accepts (reply : post_result) : bool :=
  match reply with
  | PostReturns r =>
      (status_code r =? 200) &&
      match json_body r with
      | JsonValue (JObj members) =>
          match dict_get members "isValid" JNull with
          | JBool true => true
          | _ => false
          end
      | _ => false
      end
  | PostRaises _ => false
  end.


(** ** The configuration of the script *)

Definition CONFIG : Config := {|
  source_chain := {|
    src_name := "Ethereum";
    src_rpc_url := "https://rpc.ankr.com/eth";
    bridge_contract_address := "0x1234567890123456789012345678901234567890";
    event_name := "TokensLocked"
  |};
  destination_chain := {|
    dst_name := "Polygon";
    dst_rpc_url := "https://rpc.ankr.com/polygon";
    token_mint_contract_address := "0x0987654321098765432109876543210987654321"
  |};
  bridge_contract_abi := "[event TokensLocked(address indexed token, address indexed sender, bytes recipient, uint256 amount, uint256 indexed destinationChainId)]";
  oracle_api := Some {|
    url := Some "https://api.mock-oracle.io/validate-tx";
    api_key := Some "your_default_api_key"
  |}
|}.

Definition sample_event : event_data := {|
  transactionHash := [x0a; xbc];
  args := {| recipient := RecipientBytes [x01; xff]; amount := 5 |}
|}.

Definition sample_contract : Contract := {|
  address := "0x1234567890123456789012345678901234567890";
  abi := bridge_contract_abi CONFIG
|}.

Definition accepting : post_result :=
  PostReturns {| status_code := 200;
                 json_body := JsonValue (JObj [("isValid", JBool true)]);
                 text := "{isValid: true}" |}.

Definition forbidden : post_result :=
  PostReturns {| status_code := 403; json_body := JsonRaises ValueError; text := "Forbidden" |}.

(** A second log of the transaction of [sample_event]. *)
Definition duplicate_event : event_data := {|
  transactionHash := [x0a; xbc];
  args := {| recipient := RecipientText "0xbeef"; amount := 9 |}
|}.


Definition timed_out : post_result := PostRaises (RequestException "Read timed out").

(** Status 200 with a body that is JSON but not an object. *)
Definition not_an_object : post_result :=
  PostReturns {| status_code := 200; json_body := JsonValue (JArr []); text := "[]" |}.

(** Status 200 with [isValid] a non-empty string. *)
Definition valid_as_text : post_result :=
  PostReturns {| status_code := 200;
                 json_body := JsonValue (JObj [("isValid", JStr "false")]);
                 text := "{isValid: 'false'}" |}.

(** ** More readings of a trace *)

(** The transactions the action was invoked for, in order. *)
Fixpoint acted (t : list effect) : list string :=
  match t with
  | [] => []
  | Log INFO (MintSourceTxHash h) :: rest => h :: acted rest
  | _ :: rest => acted rest
  end.

(** The arguments of [time.sleep], in order. *)
Fixpoint sleeps (t : list effect) : list Z :=
  match t with
  | [] => []
  | Sleep seconds :: rest => seconds :: sleeps rest
  | _ :: rest => sleeps rest
  end.

(** The effects of [listen] itself, outside of [_process_event]. *)
Definition is_loop_effect (x : effect) : bool :=
  match x with
  | GetLatestBlockNumber | GetLogs _ _ _ | Sleep _ => true
  | Log _ (ContractNotInitialized | StartingListener _ | InitialBlockUnavailable
          | LatestBlockUnavailable | NoNewBlocks _ | ScanningBlocks _ _
          | Web3RelatedError _ | UnexpectedError _) => true
  | _ => false
  end.

(** A relation between the ProcessedSet before a method, the set after it
    and the effects in between holds of every run of the method. *)
Definition related {A} (R : gset string → gset string → list effect → Prop) (m : M A) : Prop :=
  ∀ s, R s (state_of (m s)) (trace_of (m s)).

(** The logs a node returns all satisfy [E]. *)
Definition world_within (E : event_data → Prop) (w : cycle_world) : Prop :=
  match get_logs_reply w with
  | inl _ => True
  | inr event_filter => Forall (λ er, E er.1) event_filter
  end.

(** All logs the node returns over the iterations [ws], each with the
    answer of the oracle that goes with it. *)
Fixpoint returned (ws : list cycle_world) : list (event_data * post_result) :=
  match ws with
  | [] => []
  | w :: rest =>
      match get_logs_reply w with
      | inl _ => returned rest
      | inr event_filter => event_filter ++ returned rest
      end
  end.

(** The hashes of the logs the node returns. *)
Definition offered (ws : list cycle_world) : list string :=
  map (λ er, tx_hash_of er.1) (returned ws).

(** The answers on which [_validate_with_oracle] returns [True]: any when
    no oracle is configured, the accepted ones otherwise. *)
Definition validator_confirms (config : Config) (reply : post_result) : bool :=
  match oracle_url config with
  | None | Some EmptyString => true
  | Some _ => oracle_accepts reply
  end.

(** The hashes of the logs the node returns with a confirming answer. *)
Definition confirmed (config : Config) (ws : list cycle_world) : list string :=
  map (λ er, tx_hash_of er.1)
    (List.filter (λ er, validator_confirms config er.2) (returned ws)).

(** The sleep at the end of an iteration. *)
Definition cycle_sleep (poll_interval : Z) (w : cycle_world) : Z :=
  match latest_block_reply w with
  | None => poll_interval * 2
  | Some _ => poll_interval
  end.

(** The inverse of [hex] on its image, as [bytes.fromhex] computes it on
    lowercase digits. *)
Definition nibble (c : ascii) : option N :=
  List.find (λ n, Ascii.eqb (hex_digit n) c) (map N.of_nat (seq 0 16)).

Fixpoint unhex (text : string) : option (list byte) :=
  match text with
  | EmptyString => Some []
  | String hi (String lo rest) =>
      match nibble hi, nibble lo, unhex rest with
      | Some h, Some l, Some bs =>
          match Byte.of_N (h * 16 + l) with
          | Some b => Some (b :: bs)
          | None => None
          end
      | _, _, _ => None
      end
  | String _ EmptyString => None
  end.

(** The set after is the set before with the hashes acted upon, each acted
    upon once and none of them in the set before. *)
Definition grown_by_actions (s s' : gset string) (t : list effect) : Prop :=
  s' = s ∪ list_to_set (acted t)
  ∧ NoDup (acted t)
  ∧ ∀ tx, tx ∈ acted t → tx ∉ s.

(** No more calls to the oracle than entries of the pipeline. *)
Definition calls_bounded (s s' : gset string) (t : list effect) : Prop :=
  (count is_validator_call t ≤ length (visited t))%nat.



(** ** BlockchainConnector *)

(** The lines the connector and the set-up of the listener log. *)
Inductive node_message : Type :=
| ConnectedTo (chain rpc : string)
| FailedToConnect (chain : string)
| ErrorConnecting (chain : string) (e : exn)
| NotConnectedReconnecting (chain : string)
| FailedToGetLatestBlock (chain : string) (e : exn)
| CannotSetupContract
| ContractObjectInitialized (contract_address : string)
| FailedToInitializeContract (e : exn)
| RpcUrlsNotSet.

(** The calls to web3 and the lines logged around them. *)
Inductive node_effect : Type :=
| NodeLog (lvl : level) (msg : node_message)
| NewWeb3 (rpc : string)                (* [Web3(Web3.HTTPProvider(rpc))] *)
| ProbeConnection                       (* [web3.is_connected()] *)
| ReadBlockNumber                       (* [web3.eth.block_number] *)
| ToChecksumAddress (raw : string)      (* [web3.to_checksum_address(raw)] *)
| NewContract (checksum abi_text : string).   (* [web3.eth.contract(...)] *)

Record Web3 : Type := { provider : string }.

Record BlockchainConnector : Type := {
  rpc_url : string;
  chain_name : string;
  web3 : option Web3
}.

Definition set_web3 (c : BlockchainConnector) (handle : option Web3) : BlockchainConnector :=
  {| rpc_url := rpc_url c; chain_name := chain_name c; web3 := handle |}.

(** The answers of web3 during one [connect]: whether building the
    provider raises, and what the probe says; web3's probe answers [False]
    when the node cannot be reached. *)
Record connect_world : Type := {
  new_web3 : option exn;
  probe_reply : bool
}.

Definition connect (w : connect_world) (c : BlockchainConnector)
    : BlockchainConnector * list node_effect :=
  match new_web3 w with
  | Some e =>
      (set_web3 c None,
       [NewWeb3 (rpc_url c); NodeLog ERROR (ErrorConnecting (chain_name c) e)])
  | None =>
      if probe_reply w then
        (set_web3 c (Some {| provider := rpc_url c |}),
         [NewWeb3 (rpc_url c); ProbeConnection;
          NodeLog INFO (ConnectedTo (chain_name c) (rpc_url c))])
      else
        (set_web3 c None,
         [NewWeb3 (rpc_url c); ProbeConnection;
          NodeLog ERROR (FailedToConnect (chain_name c))])
  end.

(** [BlockchainConnector(rpc_url, chain_name)] *)
Definition new_connector (rpc chain : string) (w : connect_world)
    : BlockchainConnector * list node_effect :=
  connect w {| rpc_url := rpc; chain_name := chain; web3 := None |}.

(** [self.web3 is not None and self.web3.is_connected()]: the probe is
    made only when there is a handle. *)
Definition is_connected (probe : bool) (c : BlockchainConnector) : bool * list node_effect :=
  match web3 c with
  | None => (false, [])
  | Some _ => (probe, [ProbeConnection])
  end.

(** The answers of web3 during one [get_latest_block_number]. *)
Record node_world : Type := {
  first_probe : bool;
  reconnect : connect_world;
  second_probe : bool;
  block_number_reply : exn + Z
}.

(** The [try] at the end of [get_latest_block_number]. *)
Definition read_block_number (w : node_world) (c : BlockchainConnector)
    : option Z * list node_effect :=
  match block_number_reply w with
  | inr n => (Some n, [ReadBlockNumber])
  | inl e => (None, [ReadBlockNumber; NodeLog ERROR (FailedToGetLatestBlock (chain_name c) e)])
  end.

Definition get_latest_block_number (w : node_world) (c : BlockchainConnector)
    : option Z * BlockchainConnector * list node_effect :=
  let '(ok, t1) := is_connected (first_probe w) c in
  if ok then
    let '(r, t2) := read_block_number w c in (r, c, t1 ++ t2)
  else
    let '(c1, t2) := connect (reconnect w) c in
    let '(ok1, t3) := is_connected (second_probe w) c1 in
    let before := t1 ++ [NodeLog WARNING (NotConnectedReconnecting (chain_name c))] ++ t2 ++ t3 in
    if ok1 then
      let '(r, t4) := read_block_number w c1 in (r, c1, before ++ t4)
    else (None, c1, before).

(** ** Construction of the listener and [main] *)

Record BridgeEventListener : Type := {
  listener_config : Config;
  source_connector : BlockchainConnector;
  bridge_contract : option Contract;
  processed_txs : gset string
}.

(** The answers of web3 during [_setup_source_contract]. *)
Record setup_world : Type := {
  setup_probe : bool;
  checksum_reply : exn + string;
  contract_reply : option exn
}.

Definition _setup_source_contract (config : Config) (c : BlockchainConnector) (w : setup_world)
    : option Contract * list node_effect :=
  let '(ok, t1) := is_connected (setup_probe w) c in
  if ok then
    let raw := bridge_contract_address (source_chain config) in
    match checksum_reply w with
    | inl e =>
        (None, t1 ++ [ToChecksumAddress raw; NodeLog ERROR (FailedToInitializeContract e)])
    | inr checksum_address =>
        match contract_reply w with
        | Some e =>
            (None,
             t1 ++ [ToChecksumAddress raw;
                    NewContract checksum_address (bridge_contract_abi config);
                    NodeLog ERROR (FailedToInitializeContract e)])
        | None =>
            (Some {| address := checksum_address; abi := bridge_contract_abi config |},
             t1 ++ [ToChecksumAddress raw;
                    NewContract checksum_address (bridge_contract_abi config);
                    NodeLog INFO (ContractObjectInitialized raw)])
        end
    end
  else (None, t1 ++ [NodeLog ERROR CannotSetupContract]).

(** [BridgeEventListener(config)] *)
Definition new_listener (config : Config) (boot : connect_world) (setup : setup_world)
    : BridgeEventListener * list node_effect :=
  let '(c, t1) := new_connector (src_rpc_url (source_chain config))
                    (src_name (source_chain config)) boot in
  let '(contract, t2) := _setup_source_contract config c setup in
  ({| listener_config := config; source_connector := c;
      bridge_contract := contract; processed_txs := ∅ |},
   t1 ++ t2).

(** What the outside answers during one iteration of the loop: the node to
    [get_latest_block_number], and then to [get_logs]. *)
Record iteration_world : Type := {
  node : node_world;
  logs : exn + list (event_data * post_result)
}.

(** The values of [get_latest_block_number()] over the iterations, with
    the connector they leave behind. *)
Fixpoint poll_node (ws : list iteration_world) (c : BlockchainConnector)
    : list cycle_world * BlockchainConnector * list node_effect :=
  match ws with
  | [] => ([], c, [])
  | w :: rest =>
      let '(latest, c1, t1) := get_latest_block_number (node w) c in
      let '(cws, c2, t2) := poll_node rest c1 in
      ({| latest_block_reply := latest; get_logs_reply := logs w |} :: cws, c2, t1 ++ t2)
  end.

(** [listener.listen(poll_interval, block_range)] on a constructed
    listener, with the node behind its connector.  The effects of the
    connector are kept apart from those of the listener. *)
Definition listener_listen (l : BridgeEventListener) (poll_interval block_range : Z)
    (initial : node_world) (ws : list iteration_world)
    : ((exn + option Z) * gset string * list effect) * BlockchainConnector * list node_effect :=
  let run := listen (listener_config l) (bridge_contract l) poll_interval block_range in
  match bridge_contract l with
  | None => (run None [] (processed_txs l), source_connector l, [])
  | Some _ =>
      let '(first, c1, t1) := get_latest_block_number initial (source_connector l) in
      match first with
      | None => (run None [] (processed_txs l), c1, t1)
      | Some _ =>
          let '(cws, c2, t2) := poll_node ws c1 in
          (run first cws (processed_txs l), c2, t1 ++ t2)
      end
  end.

(** The three variables the script reads with [os.getenv]. *)
Record environment : Type := {
  SOURCE_CHAIN_RPC_URL : option string;
  DEST_CHAIN_RPC_URL : option string;
  ORACLE_API_KEY : option string
}.

(** [os.getenv(name, fallback)]: the fallback is for an unset variable only. *)
Definition getenv (value : option string) (fallback : string) : string :=
  match value with
  | Some v => v
  | None => fallback
  end.

(** [CONFIG] as the script builds it in the environment [env]. *)
Definition config_from_env (env : environment) : Config := {|
  source_chain := {|
    src_name := "Ethereum";
    src_rpc_url := getenv (SOURCE_CHAIN_RPC_URL env) "https://rpc.ankr.com/eth";
    bridge_contract_address := "0x1234567890123456789012345678901234567890";
    event_name := "TokensLocked"
  |};
  destination_chain := {|
    dst_name := "Polygon";
    dst_rpc_url := getenv (DEST_CHAIN_RPC_URL env) "https://rpc.ankr.com/polygon";
    token_mint_contract_address := "0x0987654321098765432109876543210987654321"
  |};
  bridge_contract_abi := bridge_contract_abi CONFIG;
  oracle_api := Some {|
    url := Some "https://api.mock-oracle.io/validate-tx";
    api_key := Some (getenv (ORACLE_API_KEY env) "your_default_api_key")
  |}
|}.

(** [bool(os.getenv(name))]: unset and empty are both false. *)
Definition env_set (value : option string) : bool :=
  match value with
  | None | Some EmptyString => false
  | Some _ => true
  end.

Record main_run : Type := {
  construction : list node_effect;       (* effects of [BridgeEventListener(CONFIG)] *)
  warned : bool;                         (* the warning on the RPC URLs *)
  listening : (exn + option Z) * gset string * list effect;
  polling : list node_effect             (* effects of the connector under [listen] *)
}.

(** [main()]; [listen] is called with its default arguments. *)
Definition main (env : environment) (boot : connect_world) (setup : setup_world)
    (initial : node_world) (ws : list iteration_world) : main_run :=
  let '(listener, t1) := new_listener (config_from_env env) boot setup in
  let warn := negb (env_set (SOURCE_CHAIN_RPC_URL env) && env_set (DEST_CHAIN_RPC_URL env)) in
  let '(run, _, t2) := listener_listen listener 15 100 initial ws in
  {| construction := t1; warned := warn; listening := run; polling := t2 |}.

(** ** The loop with the sleep that can raise *)

(** [time.sleep(seconds)]: a negative argument raises ValueError, and one
    above [sleep_limit], the longest wait the platform can represent, raises
    OverflowError. *)
Definition sleep (sleep_limit seconds : Z) : M unit :=
  if seconds <? 0 then raise ValueError
  else if sleep_limit <? seconds then raise (OtherException "OverflowError")
  else emit (Sleep seconds).

Section ListenChecked.

Variable config : Config.
Variable contract : option Contract.
Variables poll_interval block_range sleep_limit : Z.

(** The body of the [try], as [scan_attempt] with the two sleeps before
    [continue] able to raise. *)
Definition scan_attempt_checked (w : cycle_world) (last_scanned_block : Z)
    : M (try_exit * Z) :=
  emit GetLatestBlockNumber;;
  match latest_block_reply w with
  | None =>
      logging WARNING LatestBlockUnavailable;;
      sleep sleep_limit (poll_interval * 2);;
      ret (Continue, last_scanned_block)
  | Some latest_block =>
      let from_block := from_block_of last_scanned_block in
      let to_block := to_block_of block_range last_scanned_block latest_block in
      if from_block >? latest_block then
        logging INFO (NoNewBlocks latest_block);;
        sleep sleep_limit poll_interval;;
        ret (Continue, last_scanned_block)
      else
        logging INFO (ScanningBlocks from_block to_block);;
        emit (GetLogs (event_name (source_chain config)) from_block to_block);;
        match get_logs_reply w with
        | inl e => raise e
        | inr event_filter =>
            process_events config event_filter;;
            ret (FallThrough, to_block)
        end
  end.

(** One iteration: what the [try] raises is logged by a handler, and the
    sleep after the [try] is outside of it, so that what it raises leaves the
    loop. *)
Definition listen_cycle_checked (w : cycle_world) (last_scanned_block : Z) : M Z :=
  λ s,
    match scan_attempt_checked w last_scanned_block s with
    | (inl e, s1, t1) =>
        match sleep sleep_limit poll_interval s1 with
        | (inl e', s2, t2) => (inl e', s2, t1 ++ [handler_log e] ++ t2)
        | (inr _, s2, t2) => (inr last_scanned_block, s2, t1 ++ [handler_log e] ++ t2)
        end
    | (inr (Continue, last), s1, t1) => (inr last, s1, t1)
    | (inr (FallThrough, last), s1, t1) =>
        match sleep sleep_limit poll_interval s1 with
        | (inl e', s2, t2) => (inl e', s2, t1 ++ t2)
        | (inr _, s2, t2) => (inr last, s2, t1 ++ t2)
        end
    end.

Fixpoint listen_loop_checked (ws : list cycle_world) (last_scanned_block : Z) : M Z :=
  match ws with
  | [] => ret last_scanned_block
  | w :: rest =>
      last <- listen_cycle_checked w last_scanned_block;;
      listen_loop_checked rest last
  end.

Definition listen_checked (initial_reply : option Z) (ws : list cycle_world)
    : M (option Z) :=
  match contract with
  | None =>
      logging CRITICAL ContractNotInitialized;;
      ret None
  | Some _ =>
      logging INFO (StartingListener (event_name (source_chain config)));;
      emit GetLatestBlockNumber;;
      match initial_reply with
      | None =>
          logging CRITICAL InitialBlockUnavailable;;
          ret None
      | Some latest =>
          last <- listen_loop_checked ws (latest - 1);;
          ret (Some last)
      end
  end.

End ListenChecked.

(** * Properties *)

(** ** Counting in traces *)

Lemma count_app p (t1 t2 : list effect) : count p (t1 ++ t2) = (count p t1 + count p t2)%nat.
Proof. unfold count. now rewrite List.filter_app, length_app. Qed.

Lemma count_cons p x (t : list effect) :
  count p (x :: t) = ((if p x then 1 else 0) + count p t)%nat.
Proof. unfold count. simpl. now destruct (p x). Qed.

Lemma action_invocations_app tx t1 t2 :
  action_invocations tx (t1 ++ t2) = (action_invocations tx t1 + action_invocations tx t2)%nat.
Proof. apply count_app. Qed.

Lemma is_action_for_is_action tx x : is_action_for tx x = true → is_action x = true.
Proof. destruct x as [[] []| | | |]; simpl; congruence. Qed.

Lemma count_action_for_le tx t : (action_invocations tx t ≤ count is_action t)%nat.
Proof.
  unfold action_invocations. induction t as [|x t IH]; [reflexivity|].
  rewrite !count_cons.
  destruct (is_action_for tx x) eqn:E.
  - rewrite (is_action_for_is_action _ _ E). lia.
  - destruct (is_action x); lia.
Qed.

Lemma no_action_no_invocation tx t : count is_action t = 0%nat → action_invocations tx t = 0%nat.
Proof. pose proof (count_action_for_le tx t). lia. Qed.

Lemma visited_app t1 t2 : visited (t1 ++ t2) = visited t1 ++ visited t2.
Proof.
  induction t1 as [|x t1 IH]; [reflexivity|].
  destruct x as [[] []| | | |]; simpl; now rewrite ?IH.
Qed.

Lemma fetched_ranges_app t1 t2 : fetched_ranges (t1 ++ t2) = fetched_ranges t1 ++ fetched_ranges t2.
Proof.
  induction t1 as [|x t1 IH]; [reflexivity|].
  destruct x; simpl; now rewrite ?IH.
Qed.

(** ** The validator *)

Ltac run_validator :=
  unfold _validate_with_oracle, except_request_exception, check_oracle_response,
    bind, logging, emit, ret, raise, result_of, state_of, trace_of;
  repeat (simpl; case_match; simplify_eq); simpl.

Section Validator.

Variable config : Config.
Implicit Types (event : event_data) (reply : post_result) (s : gset string).

Lemma validate_state event reply s :
  state_of (_validate_with_oracle config event reply s) = s.
Proof. run_validator; reflexivity. Qed.

Lemma validate_any_state event reply s s' :
  result_of (_validate_with_oracle config event reply s)
  = result_of (_validate_with_oracle config event reply s')
  ∧ trace_of (_validate_with_oracle config event reply s)
    = trace_of (_validate_with_oracle config event reply s').
Proof. run_validator; split; congruence. Qed.

Lemma validate_no_action event reply s :
  count is_action (trace_of (_validate_with_oracle config event reply s)) = 0%nat.
Proof. run_validator; reflexivity. Qed.

Lemma validate_unconfigured event reply s :
  oracle_url config = None ∨ oracle_url config = Some EmptyString →
  _validate_with_oracle config event reply s
  = (inr true, s, [Log WARNING OracleNotConfigured]).
Proof. intros [H|H]; unfold _validate_with_oracle; rewrite H; reflexivity. Qed.

Lemma validate_call event reply s target :
  oracle_url config = Some target → target ≠ EmptyString →
  List.filter is_validator_call (trace_of (_validate_with_oracle config event reply s))
  = [HttpPost target (oracle_payload config event) (oracle_headers config) 10].
Proof. intros H Hne. unfold _validate_with_oracle. rewrite H. run_validator; congruence. Qed.

Lemma validate_accepts event reply s target :
  oracle_url config = Some target → target ≠ EmptyString →
  result_of (_validate_with_oracle config event reply s) = inr true
  ↔ oracle_accepts reply = true.
Proof.
  intros H Hne. unfold _validate_with_oracle, oracle_accepts. rewrite H.
  run_validator; split; congruence.
Qed.

End Validator.

(** ** The action and the per-event pipeline *)

Section Pipeline.

Variable config : Config.
Implicit Types (event : event_data) (reply : post_result) (s : gset string).

Lemma initiate_run event s :
  _initiate_destination_chain_action config event s
  = (inr tt, {[ tx_hash_of event ]} ∪ s, action_trace config event).
Proof. reflexivity. Qed.

Lemma action_trace_invocations tx event :
  action_invocations tx (action_trace config event)
  = if bool_decide (tx_hash_of event = tx) then 1%nat else 0%nat.
Proof.
  unfold action_invocations, count, action_trace. simpl.
  now case_bool_decide.
Qed.

Lemma action_trace_no_call event : count is_validator_call (action_trace config event) = 0%nat.
Proof. reflexivity. Qed.

Lemma process_seen event reply s :
  tx_hash_of event ∈ s →
  _process_event config event reply s
  = (inr tt, s, [Log DEBUG (SkippingProcessed (tx_hash_of event))]).
Proof.
  intros Hin. unfold _process_event, bind, is_processed. fold (tx_hash_of event).
  now rewrite bool_decide_eq_true_2.
Qed.

Ltac enter_pipeline event Hnew :=
  unfold _process_event, bind, is_processed; fold (tx_hash_of event);
  rewrite (bool_decide_eq_false_2 _ Hnew); simpl.

Lemma process_accepted event reply s :
  tx_hash_of event ∉ s →
  result_of (_validate_with_oracle config event reply s) = inr true →
  _process_event config event reply s
  = (inr tt, {[ tx_hash_of event ]} ∪ s,
     Log INFO (NewEventFound (event_name (source_chain config)) (tx_hash_of event))
       :: trace_of (_validate_with_oracle config event reply s) ++ action_trace config event).
Proof.
  intros Hnew Hv. pose proof (validate_state config event reply s) as Hs.
  enter_pipeline event Hnew.
  destruct (_validate_with_oracle config event reply s) as [[r s1] t1].
  unfold result_of, state_of, trace_of in *. simpl in *. subst. reflexivity.
Qed.

Lemma process_rejected event reply s :
  tx_hash_of event ∉ s →
  result_of (_validate_with_oracle config event reply s) = inr false →
  _process_event config event reply s
  = (inr tt, s,
     Log INFO (NewEventFound (event_name (source_chain config)) (tx_hash_of event))
       :: trace_of (_validate_with_oracle config event reply s)
       ++ [Log WARNING (ValidationFailedNoAction (tx_hash_of event))]).
Proof.
  intros Hnew Hv. pose proof (validate_state config event reply s) as Hs.
  enter_pipeline event Hnew.
  destruct (_validate_with_oracle config event reply s) as [[r s1] t1].
  unfold result_of, state_of, trace_of in *. simpl in *. subst. reflexivity.
Qed.

Lemma process_raised event reply s e :
  tx_hash_of event ∉ s →
  result_of (_validate_with_oracle config event reply s) = inl e →
  _process_event config event reply s
  = (inl e, s,
     Log INFO (NewEventFound (event_name (source_chain config)) (tx_hash_of event))
       :: trace_of (_validate_with_oracle config event reply s)).
Proof.
  intros Hnew Hv. pose proof (validate_state config event reply s) as Hs.
  enter_pipeline event Hnew.
  destruct (_validate_with_oracle config event reply s) as [[r s1] t1].
  unfold result_of, state_of, trace_of in *. simpl in *. subst. reflexivity.
Qed.

Lemma pipeline_paths event reply s : pipeline_path config event reply s.
Proof.
  destruct (decide (tx_hash_of event ∈ s)) as [Hin|Hnew].
  - now apply path_seen.
  - destruct (result_of (_validate_with_oracle config event reply s)) as [e|[|]] eqn:Hv.
    + now apply (path_raised _ _ _ _ e).
    + now apply path_accepted.
    + now apply path_rejected.
Qed.

End Pipeline.


(** ** Agreement of [processed_txs] with the trace *)

Lemma preserves_ret {A} (a : A) : preserves (ret a).
Proof. intros s t H. unfold state_of, trace_of; simpl. now rewrite app_nil_r. Qed.

Lemma preserves_raise {A} e : preserves (@raise A e).
Proof. intros s t H. unfold state_of, trace_of; simpl. now rewrite app_nil_r. Qed.

Lemma preserves_emit x : is_action x = false → preserves (emit x).
Proof.
  intros Hx s t H tx. unfold state_of, trace_of; simpl.
  rewrite action_invocations_app, (no_action_no_invocation tx [x]), Nat.add_0_r; [apply H|].
  unfold count; simpl. now rewrite Hx.
Qed.

Lemma preserves_bind {A B} (m : M A) (k : A → M B) :
  preserves m → (∀ a, preserves (k a)) → preserves (bind m k).
Proof.
  intros Hm Hk s t H. specialize (Hm s t H). unfold bind.
  destruct (m s) as [[[e|a] s1] t1]; [exact Hm|].
  specialize (Hk a s1 _ Hm).
  destruct (k a s1) as [[r s2] t2].
  unfold state_of, trace_of in *; simpl in *. now rewrite app_assoc.
Qed.

Lemma grows_ret {A} (a : A) : grows (ret a).
Proof. intros s. reflexivity. Qed.

Lemma grows_raise {A} e : grows (@raise A e).
Proof. intros s. reflexivity. Qed.

Lemma grows_emit x : grows (emit x).
Proof. intros s. reflexivity. Qed.

Lemma grows_bind {A B} (m : M A) (k : A → M B) :
  grows m → (∀ a, grows (k a)) → grows (bind m k).
Proof.
  intros Hm Hk s. specialize (Hm s). unfold bind.
  destruct (m s) as [[[e|a] s1] t1]; [exact Hm|].
  specialize (Hk a s1).
  destruct (k a s1) as [[r s2] t2].
  unfold state_of in *; simpl in *. set_solver.
Qed.

Section Agreement.

Variable config : Config.
Implicit Types (event : event_data) (reply : post_result) (s : gset string).

Lemma process_event_trace event reply s tx :
  action_invocations tx (trace_of (_process_event config event reply s))
  = if bool_decide (tx ∈ state_of (_process_event config event reply s))
    then if bool_decide (tx ∈ s) then 0%nat else 1%nat
    else 0%nat.
Proof.
  pose proof (validate_no_action config event reply s) as Hv.
  apply (no_action_no_invocation tx) in Hv.
  destruct (pipeline_paths config event reply s) as [Hin|Hnew Hr|Hnew Hr|e Hnew Hr].
  - rewrite process_seen by done. unfold state_of, trace_of; simpl.
    repeat case_bool_decide; reflexivity.
  - rewrite process_accepted by done. unfold state_of, trace_of at 1; simpl.
    change (?x :: ?l ++ ?r) with ((x :: l) ++ r).
    rewrite action_invocations_app, action_trace_invocations.
    change (?x :: ?l) with ([x] ++ l). rewrite action_invocations_app, Hv.
    unfold action_invocations, count; simpl.
    destruct (decide (tx_hash_of event = tx)) as [<-|Hne].
    + rewrite !bool_decide_eq_true_2 by set_solver.
      now rewrite bool_decide_eq_false_2.
    + rewrite (bool_decide_eq_false_2 (tx_hash_of event = tx)) by done.
      destruct (decide (tx ∈ s)).
      * now rewrite !bool_decide_eq_true_2 by set_solver.
      * rewrite (bool_decide_eq_false_2 (tx ∈ {[tx_hash_of event]} ∪ s)); [done|].
        intros [?%elem_of_singleton|?]%elem_of_union; congruence.
  - rewrite process_rejected by done. unfold state_of, trace_of at 1; simpl.
    change (?x :: ?l ++ ?r) with ([x] ++ l ++ r).
    rewrite !action_invocations_app, Hv.
    unfold action_invocations, count; simpl.
    repeat case_bool_decide; reflexivity.
  - rewrite (process_raised _ _ _ _ e) by done. unfold state_of, trace_of at 1; simpl.
    change (?x :: ?l) with ([x] ++ l).
    rewrite !action_invocations_app, Hv.
    unfold action_invocations, count; simpl.
    repeat case_bool_decide; reflexivity.
Qed.

Lemma grows_process_event event reply : grows (_process_event config event reply).
Proof.
  intros s.
  destruct (pipeline_paths config event reply s) as [Hin|Hnew Hr|Hnew Hr|e Hnew Hr].
  - now rewrite process_seen.
  - rewrite process_accepted by done. unfold state_of; simpl. set_solver.
  - now rewrite process_rejected.
  - now rewrite (process_raised _ _ _ _ e).
Qed.

Lemma preserves_process_event event reply : preserves (_process_event config event reply).
Proof.
  intros s t H tx. rewrite action_invocations_app, H, process_event_trace.
  pose proof (grows_process_event event reply s) as Hg.
  repeat case_bool_decide; try reflexivity; set_solver.
Qed.

End Agreement.

(** ** One iteration of the loop *)

Section Cycle.

Variable config : Config.
Variables poll_interval block_range : Z.
Implicit Types (w : cycle_world) (s : gset string) (last : Z).

Abbreviation cycle := (listen_cycle config poll_interval block_range).
Abbreviation to_block := (to_block_of block_range).
Abbreviation scan_prefix := (scan_prefix config block_range).
Abbreviation events := (process_events config).

Ltac run_cycle w Hlatest :=
  unfold listen_cycle, scan_attempt, bind, logging, emit, ret, raise;
  rewrite Hlatest; simpl.

Lemma cycle_rpc_failure w last s :
  latest_block_reply w = None →
  cycle w last s
  = (inr last, s,
     [GetLatestBlockNumber; Log WARNING LatestBlockUnavailable; Sleep (poll_interval * 2)]).
Proof. intros Hl. now run_cycle w Hl. Qed.

Lemma cycle_no_new_blocks w last s latest_block :
  latest_block_reply w = Some latest_block →
  latest_block ≤ last →
  cycle w last s
  = (inr last, s,
     [GetLatestBlockNumber; Log INFO (NoNewBlocks latest_block); Sleep poll_interval]).
Proof.
  intros Hl Hle. run_cycle w Hl.
  replace (from_block_of last >? latest_block) with true; [reflexivity|].
  unfold from_block_of. symmetry. rewrite Z.gtb_ltb. apply Z.ltb_lt. lia.
Qed.

Lemma cycle_fetch_failed w last s latest_block e :
  latest_block_reply w = Some latest_block →
  last < latest_block →
  get_logs_reply w = inl e →
  cycle w last s
  = (inr last, s, scan_prefix last latest_block ++ [handler_log e; Sleep poll_interval]).
Proof.
  intros Hl Hlt Hg. run_cycle w Hl.
  replace (from_block_of last >? latest_block) with false.
  - simpl. now rewrite Hg.
  - unfold from_block_of. symmetry. rewrite Z.gtb_ltb. apply Z.ltb_ge. lia.
Qed.

Lemma cycle_scanned w last s latest_block event_filter :
  latest_block_reply w = Some latest_block →
  last < latest_block →
  get_logs_reply w = inr event_filter →
  cycle w last s
  = match events event_filter s with
    | (inl e, s1, t1) =>
        (inr last, s1,
         scan_prefix last latest_block ++ t1 ++ [handler_log e; Sleep poll_interval])
    | (inr _, s1, t1) =>
        (inr (to_block last latest_block), s1,
         scan_prefix last latest_block ++ t1 ++ [Sleep poll_interval])
    end.
Proof.
  intros Hl Hlt Hg. run_cycle w Hl.
  replace (from_block_of last >? latest_block) with false.
  - simpl. rewrite Hg.
    destruct (events event_filter s) as [[[e|[]] s1] t1]; simpl;
      now rewrite ?app_nil_r.
  - unfold from_block_of. symmetry. rewrite Z.gtb_ltb. apply Z.ltb_ge. lia.
Qed.

Lemma cycle_paths w last : cycle_path w last.
Proof.
  destruct (latest_block_reply w) as [latest_block|] eqn:Hl.
  - destruct (Z_lt_le_dec last latest_block) as [Hlt|Hle].
    + destruct (get_logs_reply w) as [e|event_filter] eqn:Hg.
      * now apply (path_fetch_failed _ _ latest_block e).
      * now apply (path_scanned _ _ latest_block event_filter).
    + now apply (path_no_new_blocks _ _ latest_block).
  - now apply path_rpc_failure.
Qed.

End Cycle.

(** ** The loop *)

Section Loop.

Variable config : Config.
Variable bridge_contract : option Contract.
Variables poll_interval block_range : Z.
Implicit Types (w : cycle_world) (ws : list cycle_world) (s : gset string) (last : Z).

Abbreviation cycle' := (listen_cycle config poll_interval block_range).
Abbreviation loop := (listen_loop config poll_interval block_range).
Abbreviation events' := (process_events config).

Lemma preserves_process_events event_filter : preserves (events' event_filter).
Proof.
  induction event_filter as [|[event reply] rest IH]; simpl.
  - apply preserves_ret.
  - apply preserves_bind; [apply preserves_process_event | intros _; exact IH].
Qed.

Lemma grows_process_events event_filter : grows (events' event_filter).
Proof.
  induction event_filter as [|[event reply] rest IH]; simpl.
  - apply grows_ret.
  - apply grows_bind; [apply grows_process_event | intros _; exact IH].
Qed.

Lemma preserves_scan_attempt w last :
  preserves (scan_attempt config poll_interval block_range w last).
Proof.
  unfold scan_attempt, logging.
  repeat first
    [ apply preserves_bind; [|intros ?]
    | apply preserves_emit; reflexivity
    | apply preserves_ret
    | apply preserves_raise
    | apply preserves_process_events
    | case_match ].
Qed.

Lemma grows_scan_attempt w last :
  grows (scan_attempt config poll_interval block_range w last).
Proof.
  unfold scan_attempt, logging.
  repeat first
    [ apply grows_bind; [|intros ?]
    | apply grows_emit
    | apply grows_ret
    | apply grows_raise
    | apply grows_process_events
    | case_match ].
Qed.

Lemma handler_log_no_action e : is_action (handler_log e) = false.
Proof. unfold handler_log. now destruct (is_web3_error e). Qed.

Lemma preserves_cycle w last : preserves (cycle' w last).
Proof.
  intros s t H. pose proof (preserves_scan_attempt w last s t H) as Hs.
  unfold listen_cycle.
  destruct (scan_attempt _ _ _ w last s) as [[[e|[[] v]] s1] t1];
    unfold state_of, trace_of in *; simpl in *; try exact Hs.
  - intros tx. rewrite app_assoc, action_invocations_app, Hs.
    rewrite (no_action_no_invocation tx); [lia|].
    unfold count; simpl. now rewrite handler_log_no_action.
  - intros tx. rewrite app_assoc, action_invocations_app, Hs.
    rewrite (no_action_no_invocation tx); [lia|reflexivity].
Qed.

Lemma grows_cycle w last : grows (cycle' w last).
Proof.
  intros s. pose proof (grows_scan_attempt w last s) as Hs.
  unfold listen_cycle.
  now destruct (scan_attempt _ _ _ w last s) as [[[e|[[] v]] s1] t1].
Qed.

(** An iteration always ends: whatever is raised inside is handled. *)
Lemma cycle_returns w last s : ∃ v, result_of (cycle' w last s) = inr v.
Proof.
  unfold listen_cycle.
  destruct (scan_attempt _ _ _ w last s) as [[[e|[[] v]] s1] t1]; eauto.
Qed.

Lemma preserves_loop ws last : preserves (loop ws last).
Proof.
  revert last. induction ws as [|w rest IH]; intros last; simpl.
  - apply preserves_ret.
  - apply preserves_bind; [apply preserves_cycle | intros v; apply IH].
Qed.

Lemma grows_loop ws last : grows (loop ws last).
Proof.
  revert last. induction ws as [|w rest IH]; intros last; simpl.
  - apply grows_ret.
  - apply grows_bind; [apply grows_cycle | intros v; apply IH].
Qed.

Lemma loop_returns ws last s : ∃ v, result_of (loop ws last s) = inr v.
Proof.
  revert last s. induction ws as [|w rest IH]; intros last s; simpl.
  - now exists last.
  - destruct (cycle_returns w last s) as [v Hv]. unfold bind.
    destruct (cycle' w last s) as [[r s1] t1]. unfold result_of in Hv; simpl in Hv. subst r.
    destruct (IH v s1) as [v' Hv'].
    destruct (loop rest v s1) as [[r s2] t2]. now exists v'.
Qed.


Lemma preserves_listen initial_reply ws :
  preserves (listen config bridge_contract poll_interval block_range initial_reply ws).
Proof.
  unfold listen, logging.
  repeat first
    [ apply preserves_bind; [|intros ?]
    | apply preserves_emit; reflexivity
    | apply preserves_ret
    | apply preserves_loop
    | case_match ].
Qed.

End Loop.

(** ** What a batch leaves in the trace *)

Section Batch.

Variable config : Config.
Implicit Types (event : event_data) (reply : post_result) (s : gset string).

Lemma validate_not_visited event reply s :
  visited (trace_of (_validate_with_oracle config event reply s)) = [].
Proof. run_validator; reflexivity. Qed.

Lemma validate_no_fetch event reply s :
  fetched_ranges (trace_of (_validate_with_oracle config event reply s)) = [].
Proof. run_validator; reflexivity. Qed.

(** Every entry of the pipeline is seen in the trace, and none fetches. *)
Lemma process_event_visited event reply s :
  visited (trace_of (_process_event config event reply s)) = [tx_hash_of event]
  ∧ fetched_ranges (trace_of (_process_event config event reply s)) = [].
Proof.
  pose proof (validate_not_visited event reply s) as Hv.
  pose proof (validate_no_fetch event reply s) as Hf.
  destruct (pipeline_paths config event reply s) as [Hin|Hnew Hr|Hnew Hr|e Hnew Hr].
  - now rewrite process_seen.
  - rewrite process_accepted by done. unfold trace_of at 1 3; simpl.
    now rewrite visited_app, fetched_ranges_app, Hv, Hf.
  - rewrite process_rejected by done. unfold trace_of at 1 3; simpl.
    now rewrite visited_app, fetched_ranges_app, Hv, Hf.
  - rewrite (process_raised _ _ _ _ e) by done. unfold trace_of at 1 3; simpl.
    now rewrite Hv, Hf.
Qed.

(** Only the validator raises in the pipeline. *)
Lemma process_event_returns event reply s :
  (∃ b, result_of (_validate_with_oracle config event reply s) = inr b) →
  result_of (_process_event config event reply s) = inr tt.
Proof.
  intros [b Hb].
  destruct (pipeline_paths config event reply s) as [Hin|Hnew Hr|Hnew Hr|e Hnew Hr].
  - now rewrite process_seen.
  - now rewrite process_accepted.
  - now rewrite process_rejected.
  - congruence.
Qed.

(** Without a confirmation the action is not invoked and nothing is marked. *)
Lemma process_not_confirmed event reply s :
  result_of (_validate_with_oracle config event reply s) ≠ inr true →
  count is_action (trace_of (_process_event config event reply s)) = 0%nat
  ∧ state_of (_process_event config event reply s) = s.
Proof.
  intros Hno. pose proof (validate_no_action config event reply s) as Hv.
  destruct (pipeline_paths config event reply s) as [Hin|Hnew Hr|Hnew Hr|e Hnew Hr].
  - now rewrite process_seen.
  - congruence.
  - rewrite process_rejected by done. unfold state_of, trace_of at 1; simpl. split; [|done].
    change (?x :: ?l ++ ?r) with ([x] ++ l ++ r). now rewrite !count_app, Hv.
  - rewrite (process_raised _ _ _ _ e) by done. unfold state_of, trace_of at 1; simpl.
    split; [|done]. change (?x :: ?l) with ([x] ++ l). now rewrite !count_app, Hv.
Qed.

Lemma process_events_no_fetch event_filter s :
  fetched_ranges (trace_of (process_events config event_filter s)) = [].
Proof.
  revert s. induction event_filter as [|[event reply] rest IH]; intros s; [reflexivity|].
  simpl. unfold bind.
  destruct (process_event_visited event reply s) as [_ Hf].
  destruct (_process_event config event reply s) as [[[e|[]] s1] t1]; [exact Hf|].
  specialize (IH s1). destruct (process_events config rest s1) as [[r s2] t2].
  unfold trace_of in *; simpl in *. now rewrite fetched_ranges_app, Hf, IH.
Qed.


End Batch.

(** ** The checkpoint *)

Section Checkpoint.

Variable config : Config.
Variables poll_interval block_range : Z.
Hypothesis block_range_nonneg : 0 ≤ block_range.
Implicit Types (w : cycle_world) (ws : list cycle_world) (s : gset string) (last : Z).

Lemma to_block_above last latest_block :
  last < latest_block → last < to_block_of block_range last latest_block.
Proof. unfold to_block_of, from_block_of. lia. Qed.

Lemma cycle_monotone w last s v :
  result_of (listen_cycle config poll_interval block_range w last s) = inr v → last ≤ v.
Proof.
  destruct (cycle_paths w last) as [Hl|H Hl Hle|H e Hl Hlt Hg|H event_filter Hl Hlt Hg].
  - rewrite cycle_rpc_failure by done. unfold result_of; simpl. intros [= <-]. lia.
  - rewrite (cycle_no_new_blocks _ _ _ _ _ _ H) by done. unfold result_of; simpl.
    intros [= <-]. lia.
  - rewrite (cycle_fetch_failed _ _ _ _ _ _ H e) by done. unfold result_of; simpl.
    intros [= <-]. lia.
  - rewrite (cycle_scanned _ _ _ _ _ _ H event_filter) by done.
    pose proof (to_block_above last H Hlt).
    destruct (process_events config event_filter s) as [[[e|[]] s1] t1];
      unfold result_of; simpl; intros [= <-]; lia.
Qed.

Lemma loop_monotone ws last s v :
  result_of (listen_loop config poll_interval block_range ws last s) = inr v → last ≤ v.
Proof.
  revert last s. induction ws as [|w rest IH]; intros last s; simpl.
  - unfold result_of; simpl. intros [= <-]. lia.
  - unfold bind. pose proof (cycle_monotone w last s) as Hc.
    destruct (listen_cycle config poll_interval block_range w last s) as [[[e|v1] s1] t1];
      [discriminate|].
    specialize (Hc v1 eq_refl). specialize (IH v1 s1).
    destruct (listen_loop config poll_interval block_range rest v1 s1) as [[r s2] t2].
    unfold result_of in *; simpl in *. intros Hr. specialize (IH Hr). lia.
Qed.

End Checkpoint.

(** * The claims *)

Lemma validation_fails_not_accepted reply :
  validation_fails reply → oracle_accepts reply = false.
Proof.
  intros [e|r Hs|r e Hb|r j Hb Hj|r members Hb Ht]; simpl; try reflexivity.
  - apply andb_false_iff. left. now apply Z.eqb_neq.
  - rewrite Hb. apply andb_false_r.
  - rewrite Hb. destruct j; try apply andb_false_r. now destruct (Hj members).
  - rewrite Hb, Ht. apply andb_false_r.
Qed.

Lemma at_most_once_twice config e1 e2 r1 r2 s :
  tx_hash_of e1 = tx_hash_of e2 →
  (action_invocations (tx_hash_of e1)
     (trace_of (_process_event config e1 r1 s)
      ++ trace_of (_process_event config e2 r2 (state_of (_process_event config e1 r1 s))))
   ≤ 1)%nat.
Proof.
  intros _. rewrite action_invocations_app, !process_event_trace.
  repeat case_bool_decide; lia.
Qed.

(** C1, as stated, fails: an event that the oracle refuses both times it is
    processed sees no invocation of the action, not one. *)
Lemma C1_counterexample :
  let run1 := _process_event CONFIG sample_event forbidden ∅ in
  let run2 := _process_event CONFIG sample_event forbidden (state_of run1) in
  action_invocations (tx_hash_of sample_event) (trace_of run1 ++ trace_of run2) = 0%nat
  ∧ action_invocations (tx_hash_of sample_event) (trace_of run1 ++ trace_of run2) ≠ 1%nat.
Proof. vm_compute. split; [reflexivity | discriminate]. Qed.

(** C1, amended: processing two logs of one txHash, one after the other,
    invokes the action at most once; when the txHash is new and the first
    validation is accepted it invokes it exactly once, the txHash is then in
    the ProcessedSet, and the duplicate is discarded with the skip line alone,
    so without a call to the validator, also after any number of further
    iterations of the loop. *)
Theorem C1_duplicate_acted_once config poll_interval block_range e1 e2 r1 r2 s :
  tx_hash_of e1 = tx_hash_of e2 →
  let tx := tx_hash_of e1 in
  let run1 := _process_event config e1 r1 s in
  let run2 := _process_event config e2 r2 (state_of run1) in
  (action_invocations tx (trace_of run1 ++ trace_of run2) ≤ 1)%nat
  ∧ (tx ∉ s →
     result_of (_validate_with_oracle config e1 r1 s) = inr true →
     action_invocations tx (trace_of run1 ++ trace_of run2) = 1%nat
     ∧ tx ∈ state_of run1
     ∧ run2 = (inr tt, state_of run1, [Log DEBUG (SkippingProcessed tx)])
     ∧ ∀ ws last,
         let later := state_of (listen_loop config poll_interval block_range ws last
                                  (state_of run1)) in
         _process_event config e2 r2 later
         = (inr tt, later, [Log DEBUG (SkippingProcessed tx)])).
Proof.
  intros Heq tx run1 run2. split; [now apply at_most_once_twice|].
  intros Hnew Hv.
  assert (Hin : tx ∈ state_of run1).
  { subst run1. rewrite process_accepted by done. unfold state_of; simpl. set_solver. }
  assert (Hskip : run2 = (inr tt, state_of run1, [Log DEBUG (SkippingProcessed tx)])).
  { subst run2 tx. rewrite Heq in *. now apply process_seen. }
  repeat split; [|exact Hin|exact Hskip|].
  - rewrite action_invocations_app, Hskip. subst run1.
    rewrite process_event_trace. fold tx.
    rewrite bool_decide_eq_true_2, bool_decide_eq_false_2 by done. reflexivity.
  - intros ws last later. subst tx. rewrite Heq in *. apply process_seen.
    now apply (grows_loop config poll_interval block_range ws last (state_of run1)).
Qed.

Lemma C1_duplicate_acted_once_witness :
  let run1 := _process_event CONFIG sample_event accepting ∅ in
  let run2 := _process_event CONFIG duplicate_event accepting (state_of run1) in
  tx_hash_of sample_event = tx_hash_of duplicate_event
  ∧ action_invocations (tx_hash_of sample_event) (trace_of run1 ++ trace_of run2) = 1%nat
  ∧ run2 = (inr tt, state_of run1, [Log DEBUG (SkippingProcessed (tx_hash_of sample_event))]).
Proof.
  intros run1 run2. split; [reflexivity|].
  destruct (C1_duplicate_acted_once CONFIG 15 100 sample_event duplicate_event
              accepting accepting ∅ eq_refl) as [_ H].
  destruct H as (H1 & _ & H3 & _); [set_solver | reflexivity |].
  split; [exact H1 | exact H3].
Defined.

Lemma not_accepted_validation_fails reply :
  oracle_accepts reply = false → validation_fails reply.
Proof.
  destruct reply as [e|r]; simpl; [intros _; constructor|].
  destruct (status_code r =? 200) eqn:Hs; simpl.
  - destruct (json_body r) as [e|j] eqn:Hj.
    + intros _. now apply (fails_undecodable r e).
    + destruct j as [|b|z|text|items|members];
        try (intros _; now apply (fails_not_object r _ Hj)).
      intros Ht. now apply (fails_rejected r members).
  - intros _. apply fails_status. now apply Z.eqb_neq.
Qed.

(** C4, as stated, fails: an answer with status 200 and [isValid] equal to
    the string "false" is a rejection in the words of the specification, and
    yet the validator returns [True], the action is invoked and the txHash is
    added to the ProcessedSet. *)
Lemma C4_counterexample :
  let run := _process_event CONFIG sample_event valid_as_text ∅ in
  spec_accepts valid_as_text = false
  ∧ result_of (_validate_with_oracle CONFIG sample_event valid_as_text ∅) = inr true
  ∧ action_invocations (tx_hash_of sample_event) (trace_of run) = 1%nat
  ∧ tx_hash_of sample_event ∈ state_of run.
Proof.
  intros run. split; [reflexivity|]. split; [reflexivity|]. split; [reflexivity|].
  subst run. rewrite process_accepted; [|apply not_elem_of_empty|reflexivity].
  unfold state_of; simpl. apply elem_of_union. left. now apply elem_of_singleton.
Qed.

(** C4, amended: with the oracle configured, when the call to the validator
    fails (transport error or timeout, status other than 200, a body that
    does not decode or is not a JSON object) or its answer is a rejection by
    the test of the code (status 200 with an object whose [isValid] is absent
    or falsy in Python's sense), the validator does not return [True], the
    action is not invoked and the ProcessedSet is left as it was; on every
    other answer, an [isValid] that is truthy without being [true] among
    them, an event not yet processed is acted upon once and marked. *)
Theorem C4_fail_closed config event reply s target :
  oracle_url config = Some target → target ≠ EmptyString →
  let run := _process_event config event reply s in
  (validation_fails reply →
   result_of (_validate_with_oracle config event reply s) ≠ inr true
   ∧ count is_action (trace_of run) = 0%nat
   ∧ state_of run = s)
  ∧ (¬ validation_fails reply → tx_hash_of event ∉ s →
     result_of (_validate_with_oracle config event reply s) = inr true
     ∧ action_invocations (tx_hash_of event) (trace_of run) = 1%nat
     ∧ state_of run = {[ tx_hash_of event ]} ∪ s).
Proof.
  intros Hurl Hne run. split.
  - intros Hfail.
    assert (Hno : result_of (_validate_with_oracle config event reply s) ≠ inr true).
    { rewrite (validate_accepts config event reply s target Hurl Hne).
      rewrite (validation_fails_not_accepted reply Hfail). discriminate. }
    split; [exact Hno|]. now apply process_not_confirmed.
  - intros Hok Hnew.
    assert (Hv : result_of (_validate_with_oracle config event reply s) = inr true).
    { apply (validate_accepts config event reply s target Hurl Hne).
      destruct (oracle_accepts reply) eqn:Ha; [done|].
      destruct Hok. now apply not_accepted_validation_fails. }
    split; [exact Hv|]. subst run.
    pose proof (process_event_trace config event reply s (tx_hash_of event)) as Ht.
    rewrite process_accepted in * by done. unfold state_of, trace_of in *; simpl in *.
    split; [|done]. rewrite Ht.
    rewrite bool_decide_eq_true_2, bool_decide_eq_false_2; [done|done|].
    apply elem_of_union. left. now apply elem_of_singleton.
Qed.

Lemma C4_fail_closed_witness :
  let run := _process_event CONFIG sample_event timed_out ∅ in
  validation_fails timed_out
  ∧ count is_action (trace_of run) = 0%nat
  ∧ state_of run = ∅.
Proof.
  intros run. split; [constructor|].
  refine (proj2 (proj1 (C4_fail_closed CONFIG sample_event timed_out ∅
                          "https://api.mock-oracle.io/validate-tx" eq_refl _) _)).
  - discriminate.
  - constructor.
Defined.

(** C8, as stated, fails twice: the body carries [amount] as a JSON number,
    not as a string, and a status 200 answer whose [isValid] is the string
    "false", which is not [true], is accepted. *)
Lemma C8_counterexample :
  (∀ text, dict_get match oracle_payload CONFIG sample_event with
                    | JObj members => members
                    | _ => []
                    end "amount" JNull ≠ JStr text)
  ∧ oracle_payload CONFIG sample_event
    = JObj [ ("transactionHash", JStr "0abc"); ("sourceChain", JStr "Ethereum");
             ("amount", JNum 5) ]
  ∧ result_of (_validate_with_oracle CONFIG sample_event valid_as_text ∅) = inr true
  ∧ JStr "false" ≠ JBool true.
Proof. repeat split; [intros text; vm_compute; discriminate | discriminate]. Qed.

(** C8, amended: when the oracle is configured, a validation makes one
    HTTP POST to its URL, with a ten second timeout, the API key in the
    [x-api-key] header, and a body holding [transactionHash] as a hex string,
    [sourceChain] as a string and [amount] as a JSON integer; the validator
    returns [True] if and only if the answer has status 200 and its body is a
    JSON object whose [isValid] member is truthy in Python's sense. *)
Theorem C8_oracle_call config event reply s target :
  oracle_url config = Some target → target ≠ EmptyString →
  let run := _validate_with_oracle config event reply s in
  List.filter is_validator_call (trace_of run)
  = [ HttpPost target
        (JObj [ ("transactionHash", JStr (hex (transactionHash event)));
                ("sourceChain", JStr (src_name (source_chain config)));
                ("amount", JNum (amount (args event))) ])
        [ ("x-api-key", oracle_api_key config) ]
        10 ]
  ∧ (result_of run = inr true
     ↔ ∃ r members,
         reply = PostReturns r
         ∧ status_code r = 200
         ∧ json_body r = JsonValue (JObj members)
         ∧ truthy (dict_get members "isValid" (JBool false)) = true).
Proof.
  intros Hurl Hne run. split.
  - exact (validate_call config event reply s target Hurl Hne).
  - subst run. rewrite (validate_accepts config event reply s target Hurl Hne).
    unfold oracle_accepts. split.
    + destruct reply as [e|r]; [discriminate|].
      intros [Hs Hb]%andb_true_iff. apply Z.eqb_eq in Hs.
      destruct (json_body r) as [e|[]] eqn:Hj; try discriminate.
      now exists r, members.
    + intros (r & members & -> & Hs & Hj & Ht).
      rewrite Hs, Hj, Ht. reflexivity.
Qed.

Lemma C8_oracle_call_witness :
  List.filter is_validator_call
    (trace_of (_validate_with_oracle CONFIG sample_event accepting ∅))
  = [ HttpPost "https://api.mock-oracle.io/validate-tx"
        (JObj [ ("transactionHash", JStr "0abc"); ("sourceChain", JStr "Ethereum");
                ("amount", JNum 5) ])
        [ ("x-api-key", "your_default_api_key") ] 10 ].
Proof.
  refine (proj1 (C8_oracle_call CONFIG sample_event accepting ∅
                   "https://api.mock-oracle.io/validate-tx" eq_refl _)).
  discriminate.
Defined.

(** C9: when the configuration has no oracle URL, the validator returns
    [True] after a warning and without any HTTP call, and an event whose
    txHash is not yet processed goes on to the action: it is invoked once and
    the txHash is marked. *)
Theorem C9_unconfigured_oracle_accepts config event reply s :
  oracle_url config = None →
  _validate_with_oracle config event reply s
  = (inr true, s, [Log WARNING OracleNotConfigured])
  ∧ (tx_hash_of event ∉ s →
     let run := _process_event config event reply s in
     run = (inr tt, {[ tx_hash_of event ]} ∪ s,
            Log INFO (NewEventFound (event_name (source_chain config)) (tx_hash_of event))
              :: Log WARNING OracleNotConfigured :: action_trace config event)
     ∧ action_invocations (tx_hash_of event) (trace_of run) = 1%nat
     ∧ count is_validator_call (trace_of run) = 0%nat).
Proof.
  intros Hurl.
  assert (Hv : _validate_with_oracle config event reply s
               = (inr true, s, [Log WARNING OracleNotConfigured])).
  { apply validate_unconfigured. now left. }
  split; [exact Hv|]. intros Hnew run.
  assert (Hrun : run = (inr tt, {[ tx_hash_of event ]} ∪ s,
            Log INFO (NewEventFound (event_name (source_chain config)) (tx_hash_of event))
              :: Log WARNING OracleNotConfigured :: action_trace config event)).
  { subst run. rewrite process_accepted; [now rewrite Hv | done | now rewrite Hv]. }
  split; [exact Hrun|]. rewrite Hrun. unfold trace_of; simpl. split.
  - change (?x :: ?y :: ?l) with ([x; y] ++ l).
    rewrite action_invocations_app, action_trace_invocations.
    now rewrite bool_decide_eq_true_2.
  - reflexivity.
Qed.

Lemma C9_unconfigured_oracle_accepts_witness :
  let config := {| source_chain := source_chain CONFIG;
                   destination_chain := destination_chain CONFIG;
                   bridge_contract_abi := bridge_contract_abi CONFIG;
                   oracle_api := None |} in
  let run := _process_event config sample_event forbidden ∅ in
  oracle_url config = None
  ∧ action_invocations (tx_hash_of sample_event) (trace_of run) = 1%nat
  ∧ count is_validator_call (trace_of run) = 0%nat.
Proof.
  intros config run. split; [reflexivity|].
  destruct (C9_unconfigured_oracle_accepts config sample_event forbidden ∅ eq_refl)
    as [_ H].
  destruct H as (_ & H1 & H2); [set_solver|]. split; [exact H1 | exact H2].
Defined.

(** C10: from the empty ProcessedSet, after the start of the listener and
    any number of iterations of its loop, a txHash is in the ProcessedSet if
    and only if the action was invoked for it, and no action was invoked
    twice for one txHash; the action itself never raises and always ends by
    inserting the txHash. *)
Theorem C10_processed_iff_acted config bridge_contract poll_interval block_range
    initial_reply ws :
  let run := listen config bridge_contract poll_interval block_range initial_reply ws ∅ in
  (∀ tx,
     (tx ∈ state_of run ↔ action_invocations tx (trace_of run) = 1%nat)
     ∧ (tx ∈ state_of run ↔ (0 < action_invocations tx (trace_of run))%nat)
     ∧ (action_invocations tx (trace_of run) ≤ 1)%nat)
  ∧ (∀ event s,
       _initiate_destination_chain_action config event s
       = (inr tt, {[ tx_hash_of event ]} ∪ s, action_trace config event)
       ∧ tx_hash_of event ∈ state_of (_initiate_destination_chain_action config event s)).
Proof.
  intros run. split.
  - intros tx.
    assert (H0 : consistent ∅ []) by (intros tx'; reflexivity).
    pose proof (preserves_listen config bridge_contract poll_interval block_range
                  initial_reply ws ∅ [] H0 tx) as H.
    simpl in H. fold run in H. rewrite H.
    case_bool_decide; repeat split; intros; try done; lia.
  - intros event s. split; [apply initiate_run|].
    rewrite initiate_run. unfold state_of; simpl. set_solver.
Qed.

(** What a scanning iteration asks of [get_logs]. *)
Lemma cycle_fetched_range config poll_interval block_range w last s latest_block :
  latest_block_reply w = Some latest_block →
  last < latest_block →
  fetched_ranges (trace_of (listen_cycle config poll_interval block_range w last s))
  = [(last + 1, Z.min latest_block (last + 1 + block_range))].
Proof.
  intros Hl Hlt.
  destruct (get_logs_reply w) as [e|event_filter] eqn:Hg.
  - rewrite (cycle_fetch_failed _ _ _ _ _ _ latest_block e) by done.
    unfold trace_of; simpl. unfold handler_log. now destruct (is_web3_error e).
  - rewrite (cycle_scanned _ _ _ _ _ _ latest_block event_filter) by done.
    pose proof (process_events_no_fetch config event_filter s) as Hf.
    destruct (process_events config event_filter s) as [[[e|[]] s1] t1];
      unfold trace_of in *; simpl in *; rewrite fetched_ranges_app, Hf; simpl;
      unfold handler_log; try destruct (is_web3_error e); reflexivity.
Qed.

(** Where the height is not the limit, a range holds one block more than
    [block_range]. *)
Lemma window_holds_one_more block_range last latest_block :
  0 ≤ block_range →
  last + 1 + block_range ≤ latest_block →
  to_block_of block_range last latest_block - from_block_of last + 1 = block_range + 1.
Proof. unfold to_block_of, from_block_of. lia. Qed.

(** C2: the start of the listener sets the checkpoint to the initial height
    less one, and a scan starts at the checkpoint plus one; but with the
    checkpoint at 999, the height at 2000 and a window of 100 blocks the
    listener asks for the blocks 1000 to 1100, which are 101 blocks, where
    the claim has min(2000, 1000 + 100 - 1) = 1099. *)
Theorem C2_window_is_one_block_wider :
  let w := {| latest_block_reply := Some 2000; get_logs_reply := inr [] |} in
  let start := listen CONFIG (Some sample_contract) 15 100 (Some 1000) [] ∅ in
  let run := listen CONFIG (Some sample_contract) 15 100 (Some 1000) [w] ∅ in
  result_of start = inr (Some 999)
  ∧ fetched_ranges (trace_of run) = [(1000, 1100)]
  ∧ result_of run = inr (Some 1100)
  ∧ Z.min 2000 (1000 + 100 - 1) = 1099.
Proof. vm_compute. repeat split. Qed.















(** * Further properties of the listener *)

(** ** Relations kept by every method *)

Section Lifting.

Variable config : Config.
Variable contract : option Contract.
Variables poll_interval block_range : Z.
Variable R : gset string → gset string → list effect → Prop.
Variable E : event_data → Prop.

Hypothesis R_refl : ∀ s, R s s [].
Hypothesis R_trans : ∀ s s1 s2 t1 t2, R s s1 t1 → R s1 s2 t2 → R s s2 (t1 ++ t2).
Hypothesis R_loop : ∀ s x, is_loop_effect x = true → R s s [x].
Hypothesis R_event : ∀ event reply, E event → related R (_process_event config event reply).

Lemma related_ret {A} (a : A) : related R (ret a).
Proof. intros s. apply R_refl. Qed.

Lemma related_raise {A} e : related R (@raise A e).
Proof. intros s. apply R_refl. Qed.

Lemma related_emit x : is_loop_effect x = true → related R (emit x).
Proof. intros Hx s. now apply R_loop. Qed.

Lemma related_bind {A B} (m : M A) (k : A → M B) :
  related R m → (∀ a, related R (k a)) → related R (bind m k).
Proof.
  intros Hm Hk s. specialize (Hm s). unfold bind.
  destruct (m s) as [[[e|a] s1] t1]; [exact Hm|].
  specialize (Hk a s1). destruct (k a s1) as [[r s2] t2].
  unfold state_of, trace_of in *; simpl in *. now apply (R_trans s s1 s2).
Qed.

Lemma related_process_events event_filter :
  Forall (λ er, E er.1) event_filter →
  related R (process_events config event_filter).
Proof.
  induction 1 as [|[event reply] rest Hhead _ IH]; simpl.
  - apply related_ret.
  - apply related_bind; [now apply R_event | intros _; exact IH].
Qed.

Lemma related_scan_attempt w last :
  world_within E w →
  related R (scan_attempt config poll_interval block_range w last).
Proof.
  unfold world_within, scan_attempt, logging. intros Hw.
  apply related_bind; [now apply related_emit|intros _].
  destruct (latest_block_reply w) as [latest_block|].
  - destruct (from_block_of last >? latest_block).
    + repeat (apply related_bind; [now apply related_emit|intros _]). apply related_ret.
    + repeat (apply related_bind; [now apply related_emit|intros _]).
      destruct (get_logs_reply w) as [e|event_filter]; [apply related_raise|].
      apply related_bind; [now apply related_process_events | intros _; apply related_ret].
  - repeat (apply related_bind; [now apply related_emit|intros _]). apply related_ret.
Qed.

Lemma handler_log_loop_effect e : is_loop_effect (handler_log e) = true.
Proof. unfold handler_log. now destruct (is_web3_error e). Qed.

Lemma related_cycle w last :
  world_within E w →
  related R (listen_cycle config poll_interval block_range w last).
Proof.
  intros Hw s. pose proof (related_scan_attempt w last Hw s) as Hs.
  unfold listen_cycle.
  destruct (scan_attempt _ _ _ w last s) as [[[e|[[] v]] s1] t1];
    unfold state_of, trace_of in *; simpl in *; try exact Hs.
  - apply (R_trans s s1 s1); [exact Hs|].
    apply (R_trans s1 s1 s1 [_] [_]); apply R_loop; [apply handler_log_loop_effect | done].
  - apply (R_trans s s1 s1); [exact Hs|]. now apply R_loop.
Qed.

Lemma related_loop ws last :
  Forall (world_within E) ws →
  related R (listen_loop config poll_interval block_range ws last).
Proof.
  intros Hws. revert last. induction Hws as [|w rest Hw _ IH]; intros last; simpl.
  - apply related_ret.
  - apply related_bind; [now apply related_cycle | intros v; apply IH].
Qed.

Lemma related_listen initial_reply ws :
  Forall (world_within E) ws →
  related R (listen config contract poll_interval block_range initial_reply ws).
Proof.
  intros Hws. unfold listen, logging.
  destruct contract as [c|].
  - apply related_bind; [now apply related_emit|intros _].
    apply related_bind; [now apply related_emit|intros _].
    destruct initial_reply as [latest|].
    + apply related_bind; [now apply related_loop | intros v; apply related_ret].
    + apply related_bind; [now apply related_emit | intros _; apply related_ret].
  - apply related_bind; [now apply related_emit | intros _; apply related_ret].
Qed.

End Lifting.

Lemma worlds_within_true ws : Forall (world_within (λ _, True)) ws.
Proof.
  apply Forall_forall. intros w _. unfold world_within.
  destruct (get_logs_reply w); [done|]. now apply Forall_forall.
Qed.

(** ** The ProcessedSet and the actions of a run *)

Lemma acted_app t1 t2 : acted (t1 ++ t2) = acted t1 ++ acted t2.
Proof.
  induction t1 as [|x t1 IH]; [reflexivity|].
  destruct x as [[] []| | | |]; simpl; now rewrite ?IH.
Qed.

Lemma sleeps_app t1 t2 : sleeps (t1 ++ t2) = sleeps t1 ++ sleeps t2.
Proof.
  induction t1 as [|x t1 IH]; [reflexivity|].
  destruct x; simpl; now rewrite ?IH.
Qed.

Lemma acted_loop_effect x : is_loop_effect x = true → acted [x] = [].
Proof. destruct x as [[] []| | | |]; simpl; congruence. Qed.

Lemma visited_loop_effect x : is_loop_effect x = true → visited [x] = [].
Proof. destruct x as [[] []| | | |]; simpl; congruence. Qed.

Lemma call_loop_effect x : is_loop_effect x = true → is_validator_call x = false.
Proof. destruct x as [[] []| | | |]; simpl; congruence. Qed.

Lemma validate_not_acted config event reply s :
  acted (trace_of (_validate_with_oracle config event reply s)) = []
  ∧ sleeps (trace_of (_validate_with_oracle config event reply s)) = [].
Proof. run_validator; split; reflexivity. Qed.

Lemma validate_calls_once config event reply s :
  (count is_validator_call (trace_of (_validate_with_oracle config event reply s)) ≤ 1)%nat.
Proof. run_validator; unfold count; simpl; lia. Qed.

Lemma action_trace_acted config event : acted (action_trace config event) = [tx_hash_of event].
Proof. reflexivity. Qed.

(** What one entry of the pipeline leaves: the hash as the one action, or
    no action. *)
Lemma process_event_acted config event reply s :
  (acted (trace_of (_process_event config event reply s)) = [tx_hash_of event]
   ∧ (tx_hash_of event ∉ s)
   ∧ state_of (_process_event config event reply s) = {[ tx_hash_of event ]} ∪ s)
  ∨ (acted (trace_of (_process_event config event reply s)) = []
     ∧ state_of (_process_event config event reply s) = s).
Proof.
  destruct (validate_not_acted config event reply s) as [Hv _].
  destruct (pipeline_paths config event reply s) as [Hin|Hnew Hr|Hnew Hr|e Hnew Hr].
  - right. now rewrite process_seen.
  - left. rewrite process_accepted by done. unfold state_of, trace_of at 1; simpl.
    now rewrite acted_app, Hv.
  - right. rewrite process_rejected by done. unfold state_of, trace_of at 1; simpl.
    now rewrite acted_app, Hv.
  - right. rewrite (process_raised _ _ _ _ e) by done. unfold state_of, trace_of at 1; simpl.
    now rewrite Hv.
Qed.

Lemma grown_refl s : grown_by_actions s s [].
Proof.
  repeat split; simpl.
  - now rewrite union_empty_r_L.
  - constructor.
  - intros tx Hin. now apply elem_of_nil in Hin.
Qed.

Lemma grown_trans s s1 s2 t1 t2 :
  grown_by_actions s s1 t1 → grown_by_actions s1 s2 t2 →
  grown_by_actions s s2 (t1 ++ t2).
Proof.
  intros (-> & Hd1 & Hn1) (-> & Hd2 & Hn2).
  unfold grown_by_actions. rewrite acted_app. repeat split.
  - now rewrite list_to_set_app_L, assoc_L by apply _.
  - apply NoDup_app. repeat split; [done| |done].
    intros tx H1 H2. apply (Hn2 tx H2).
    apply elem_of_union. right. now apply elem_of_list_to_set.
  - intros tx [H1|H2]%elem_of_app; [now apply Hn1|].
    specialize (Hn2 tx H2). intros Hin. apply Hn2. apply elem_of_union. now left.
Qed.

Lemma grown_loop_effect s x : is_loop_effect x = true → grown_by_actions s s [x].
Proof.
  intros Hx. unfold grown_by_actions. rewrite (acted_loop_effect x Hx).
  apply (grown_refl s).
Qed.

Lemma grown_process_event config event reply :
  related grown_by_actions (_process_event config event reply).
Proof.
  intros s. unfold grown_by_actions.
  destruct (process_event_acted config event reply s) as [(-> & Hnew & ->)|(-> & ->)].
  - repeat split.
    + simpl. now rewrite union_empty_r_L, (comm_L (∪)).
    + apply NoDup_singleton.
    + intros tx ->%list_elem_of_singleton. exact Hnew.
  - apply (grown_refl s).
Qed.

Lemma grown_listen config contract poll_interval block_range initial_reply ws :
  related grown_by_actions (listen config contract poll_interval block_range initial_reply ws).
Proof.
  apply (related_listen config contract poll_interval block_range grown_by_actions (λ _, True)).
  - apply grown_refl.
  - apply grown_trans.
  - apply grown_loop_effect.
  - intros event reply _. apply grown_process_event.
  - apply worlds_within_true.
Qed.

(** ** Hashes read off a trace come from the logs, in their order *)

Section Reading.

Variable config : Config.
Variable contract : option Contract.
Variables poll_interval block_range : Z.
Variable rd : list effect → list string.
Variable pick : event_data * post_result → list string.

Hypothesis rd_nil : rd [] = [].
Hypothesis rd_app : ∀ t1 t2, rd (t1 ++ t2) = rd t1 ++ rd t2.
Hypothesis rd_loop : ∀ x, is_loop_effect x = true → rd [x] = [].
Hypothesis rd_event : ∀ event reply s,
  rd (trace_of (_process_event config event reply s)) `sublist_of` pick (event, reply).

Lemma reading_loop_effects t : forallb is_loop_effect t = true → rd t = [].
Proof.
  induction t as [|x t IH]; [done|]. simpl. intros [Hx Ht]%andb_true_iff.
  change (x :: t) with ([x] ++ t). now rewrite rd_app, rd_loop, IH.
Qed.

Lemma reading_events event_filter s :
  rd (trace_of (process_events config event_filter s)) `sublist_of` event_filter ≫= pick.
Proof.
  revert s. induction event_filter as [|[event reply] rest IH]; intros s; simpl.
  - unfold trace_of; simpl. now rewrite rd_nil.
  - unfold bind. pose proof (rd_event event reply s) as Hhead.
    destruct (_process_event config event reply s) as [[[e|[]] s1] t1].
    + now apply sublist_inserts_r.
    + specialize (IH s1). destruct (process_events config rest s1) as [[r s2] t2].
      unfold trace_of in *; simpl in *. rewrite rd_app. now apply sublist_app.
Qed.

Lemma returned_cons w ws : returned (w :: ws) = returned [w] ++ returned ws.
Proof. simpl. destruct (get_logs_reply w); [done|]. now rewrite app_nil_r. Qed.

Lemma reading_cycle w last s :
  rd (trace_of (listen_cycle config poll_interval block_range w last s))
    `sublist_of` returned [w] ≫= pick.
Proof.
  destruct (cycle_paths w last) as [Hl|H Hl Hle|H e Hl Hlt Hg|H event_filter Hl Hlt Hg].
  - rewrite cycle_rpc_failure by done. unfold trace_of; simpl.
    rewrite reading_loop_effects by done. apply sublist_nil_l.
  - rewrite (cycle_no_new_blocks _ _ _ _ _ _ H) by done. unfold trace_of; simpl.
    rewrite reading_loop_effects by done. apply sublist_nil_l.
  - rewrite (cycle_fetch_failed _ _ _ _ _ _ H e) by done. unfold trace_of; simpl.
    rewrite reading_loop_effects; [apply sublist_nil_l|].
    simpl. now rewrite handler_log_loop_effect.
  - rewrite (cycle_scanned _ _ _ _ _ _ H event_filter) by done.
    replace (returned [w]) with event_filter by (simpl; now rewrite Hg, app_nil_r).
    pose proof (reading_events event_filter s) as Hb.
    destruct (process_events config event_filter s) as [[[e|[]] s1] t1];
      unfold trace_of in *; cbn [snd] in *.
    + rewrite !rd_app, (reading_loop_effects (scan_prefix _ _ _ _)) by done.
      rewrite (reading_loop_effects [_; _]), app_nil_r; [done|].
      simpl. now rewrite handler_log_loop_effect.
    + rewrite !rd_app, (reading_loop_effects (scan_prefix _ _ _ _)) by done.
      now rewrite (reading_loop_effects [_]), app_nil_r.
Qed.

Lemma reading_loop ws last s :
  rd (trace_of (listen_loop config poll_interval block_range ws last s))
    `sublist_of` returned ws ≫= pick.
Proof.
  revert last s. induction ws as [|w rest IH]; intros last s.
  - unfold trace_of; simpl. now rewrite rd_nil.
  - rewrite returned_cons, bind_app. simpl. unfold bind.
    pose proof (reading_cycle w last s) as Hc.
    destruct (listen_cycle config poll_interval block_range w last s) as [[[e|v] s1] t1].
    + now apply sublist_inserts_r.
    + specialize (IH v s1).
      destruct (listen_loop config poll_interval block_range rest v s1) as [[r s2] t2].
      unfold trace_of in *; simpl in *. rewrite rd_app. now apply sublist_app.
Qed.

Lemma reading_listen initial_reply ws s :
  rd (trace_of (listen config contract poll_interval block_range initial_reply ws s))
    `sublist_of` returned ws ≫= pick.
Proof.
  unfold listen, logging, bind, emit, ret.
  destruct contract as [c|]; simpl.
  - destruct initial_reply as [latest|]; simpl.
    + pose proof (reading_loop ws (latest - 1) s) as Hl.
      destruct (listen_loop config poll_interval block_range ws (latest - 1) s)
        as [[[e|v] s1] t1]; unfold trace_of in *; simpl in *.
      * change (?a :: ?b :: t1) with ([a; b] ++ t1).
        now rewrite rd_app, (reading_loop_effects [_; _]).
      * change (?a :: ?b :: t1 ++ []) with ([a; b] ++ t1 ++ []).
        now rewrite !rd_app, (reading_loop_effects [_; _]), rd_nil, app_nil_r.
    + unfold trace_of; simpl. rewrite (reading_loop_effects [_; _; _]) by done.
      apply sublist_nil_l.
  - unfold trace_of; simpl. rewrite (reading_loop_effects [_]) by done.
    apply sublist_nil_l.
Qed.

End Reading.

Lemma bind_singleton {A B} (f : A → B) (l : list A) : l ≫= (λ a, [f a]) = map f l.
Proof. induction l as [|a l IH]; [done|]. now rewrite bind_cons, IH. Qed.

Lemma bind_filtered {A B} (p : A → bool) (f : A → B) (l : list A) :
  l ≫= (λ a, if p a then [f a] else []) = map f (List.filter p l).
Proof.
  induction l as [|a l IH]; [done|]. rewrite bind_cons, IH. simpl. now destruct (p a).
Qed.

(** The validator returns [True] only on a confirming answer. *)
Lemma validate_true_confirms config event reply s :
  result_of (_validate_with_oracle config event reply s) = inr true →
  validator_confirms config reply = true.
Proof.
  intros Hv. unfold validator_confirms.
  destruct (oracle_url config) as [[|c target]|] eqn:Hurl; try done.
  now apply (validate_accepts config event reply s (String c target) Hurl).
Qed.

Lemma acted_confirmed config contract poll_interval block_range initial_reply ws s :
  acted (trace_of (listen config contract poll_interval block_range initial_reply ws s))
    `sublist_of` confirmed config ws.
Proof.
  unfold confirmed.
  rewrite <- (bind_filtered (λ er, validator_confirms config er.2) (λ er, tx_hash_of er.1)).
  apply (reading_listen config contract poll_interval block_range acted);
    [done | apply acted_app | apply acted_loop_effect |].
  intros event reply s0. simpl.
  pose proof (validate_not_acted config event reply s0) as [Hv _].
  destruct (pipeline_paths config event reply s0) as [Hin|Hnew Hr|Hnew Hr|e Hnew Hr].
  - rewrite process_seen by done. apply sublist_nil_l.
  - rewrite (validate_true_confirms config event reply s0 Hr).
    rewrite process_accepted by done. unfold trace_of at 1; simpl.
    now rewrite acted_app, Hv.
  - rewrite process_rejected by done. unfold trace_of at 1; simpl.
    rewrite acted_app, Hv. apply sublist_nil_l.
  - rewrite (process_raised _ _ _ _ e) by done. unfold trace_of at 1; simpl.
    rewrite Hv. apply sublist_nil_l.
Qed.

Lemma confirmed_offered config ws : confirmed config ws `sublist_of` offered ws.
Proof.
  unfold confirmed, offered.
  induction (returned ws) as [|er l IH]; [done|]. simpl.
  destruct (validator_confirms config er.2); simpl; now constructor.
Qed.

Lemma acted_in_order config contract poll_interval block_range initial_reply ws s :
  acted (trace_of (listen config contract poll_interval block_range initial_reply ws s))
    `sublist_of` offered ws.
Proof.
  etransitivity; [apply acted_confirmed | apply confirmed_offered].
Qed.

Lemma visited_in_order config contract poll_interval block_range initial_reply ws s :
  visited (trace_of (listen config contract poll_interval block_range initial_reply ws s))
    `sublist_of` offered ws.
Proof.
  unfold offered. rewrite <- bind_singleton.
  apply (reading_listen config contract poll_interval block_range visited);
    [done | apply visited_app | apply visited_loop_effect |].
  intros event reply s0. now destruct (process_event_visited config event reply s0) as [-> _].
Qed.

(** X2: the actions of a run of [listen] are invoked for logs the node
    returned, in the order in which it returned them, and nothing else is
    ever added to the ProcessedSet. *)
Theorem X2_actions_follow_the_logs config contract poll_interval block_range
    initial_reply ws s :
  let run := listen config contract poll_interval block_range initial_reply ws s in
  acted (trace_of run) `sublist_of` offered ws
  ∧ visited (trace_of run) `sublist_of` offered ws
  ∧ state_of run ⊆ s ∪ list_to_set (offered ws).
Proof.
  intros run.
  pose proof (acted_in_order config contract poll_interval block_range initial_reply ws s)
    as Ha. fold run in Ha.
  repeat split; [exact Ha | apply visited_in_order |].
  destruct (grown_listen config contract poll_interval block_range initial_reply ws s)
    as (Hs & _). fold run in Hs. rewrite Hs.
  apply union_mono_l. intros tx Hin%elem_of_list_to_set.
  apply elem_of_list_to_set. now apply (sublist_subseteq _ _ Ha).
Qed.

Lemma calls_process_event config event reply :
  related calls_bounded (_process_event config event reply).
Proof.
  intros s. unfold calls_bounded.
  destruct (process_event_visited config event reply s) as [-> _].
  pose proof (validate_calls_once config event reply s) as Hv.
  destruct (pipeline_paths config event reply s) as [Hin|Hnew Hr|Hnew Hr|e Hnew Hr].
  - rewrite process_seen by done. unfold trace_of, count; simpl. lia.
  - rewrite process_accepted by done. unfold trace_of at 1; simpl.
    change (?x :: ?l ++ ?r) with ([x] ++ l ++ r).
    rewrite !count_app, action_trace_no_call. unfold count at 1; simpl. lia.
  - rewrite process_rejected by done. unfold trace_of at 1; simpl.
    change (?x :: ?l ++ ?r) with ([x] ++ l ++ r).
    rewrite !count_app. unfold count at 1 3; simpl. lia.
  - rewrite (process_raised _ _ _ _ e) by done. unfold trace_of at 1; simpl.
    change (?x :: ?l) with ([x] ++ l).
    rewrite !count_app. unfold count at 1; simpl. lia.
Qed.

(** X3: a run of [listen] makes at most one call to the oracle for each
    log it goes through, so no more calls than the node returned logs. *)
Theorem X3_one_oracle_call_per_log config contract poll_interval block_range
    initial_reply ws s :
  let run := listen config contract poll_interval block_range initial_reply ws s in
  (count is_validator_call (trace_of run) ≤ length (visited (trace_of run)))%nat
  ∧ (count is_validator_call (trace_of run) ≤ length (offered ws))%nat.
Proof.
  intros run.
  assert (Hc : (count is_validator_call (trace_of run) ≤ length (visited (trace_of run)))%nat).
  { apply (related_listen config contract poll_interval block_range calls_bounded (λ _, True)).
    - intros s0. unfold calls_bounded, count; simpl. lia.
    - intros s0 s1 s2 t1 t2. unfold calls_bounded.
      rewrite count_app, visited_app, length_app. lia.
    - intros s0 x Hx. unfold calls_bounded, count; simpl.
      rewrite (call_loop_effect x Hx); simpl. lia.
    - intros event reply _. apply calls_process_event.
    - apply worlds_within_true. }
  split; [exact Hc|].
  pose proof (visited_in_order config contract poll_interval block_range
                initial_reply ws s) as Hv.
  apply sublist_length in Hv. fold run in Hv. lia.
Qed.




(** ** Sleeps and ranges of a run *)

Lemma process_event_no_sleep config event reply :
  related (λ _ _ t, sleeps t = []) (_process_event config event reply).
Proof.
  intros s. destruct (validate_not_acted config event reply s) as [_ Hv].
  destruct (pipeline_paths config event reply s) as [Hin|Hnew Hr|Hnew Hr|e Hnew Hr].
  - now rewrite process_seen.
  - rewrite process_accepted by done. unfold trace_of at 1; simpl.
    now rewrite sleeps_app, Hv.
  - rewrite process_rejected by done. unfold trace_of at 1; simpl.
    now rewrite sleeps_app, Hv.
  - rewrite (process_raised _ _ _ _ e) by done. unfold trace_of at 1; simpl. exact Hv.
Qed.

Lemma process_events_no_sleep config event_filter s :
  sleeps (trace_of (process_events config event_filter s)) = [].
Proof.
  apply (related_process_events config (λ _ _ t, sleeps t = []) (λ _, True)).
  - done.
  - intros s0 s1 s2 t1 t2 H1 H2. now rewrite sleeps_app, H1, H2.
  - intros event reply _. apply process_event_no_sleep.
  - now apply Forall_forall.
Qed.

Lemma cycle_sleeps config poll_interval block_range w last s :
  sleeps (trace_of (listen_cycle config poll_interval block_range w last s))
  = [cycle_sleep poll_interval w].
Proof.
  unfold cycle_sleep.
  destruct (cycle_paths w last) as [Hl|H Hl Hle|H e Hl Hlt Hg|H event_filter Hl Hlt Hg];
    rewrite Hl.
  - now rewrite cycle_rpc_failure.
  - now rewrite (cycle_no_new_blocks _ _ _ _ _ _ H).
  - rewrite (cycle_fetch_failed _ _ _ _ _ _ H e) by done. unfold trace_of; simpl.
    unfold handler_log. now destruct (is_web3_error e).
  - rewrite (cycle_scanned _ _ _ _ _ _ H event_filter) by done.
    pose proof (process_events_no_sleep config event_filter s) as Hs.
    destruct (process_events config event_filter s) as [[[e|[]] s1] t1];
      unfold trace_of in *; simpl in *; rewrite sleeps_app, Hs; simpl.
    + unfold handler_log. now destruct (is_web3_error e).
    + reflexivity.
Qed.

Lemma loop_sleeps config poll_interval block_range ws last s :
  sleeps (trace_of (listen_loop config poll_interval block_range ws last s))
  = map (cycle_sleep poll_interval) ws.
Proof.
  revert last s. induction ws as [|w rest IH]; intros last s; [reflexivity|].
  simpl. unfold bind.
  pose proof (cycle_sleeps config poll_interval block_range w last s) as Hc.
  destruct (cycle_returns config poll_interval block_range w last s) as [v Hv].
  destruct (listen_cycle config poll_interval block_range w last s) as [[r s1] t1].
  unfold result_of in Hv; simpl in Hv. subst r.
  specialize (IH v s1).
  destruct (listen_loop config poll_interval block_range rest v s1) as [[r s2] t2].
  unfold trace_of in *; simpl in *. now rewrite sleeps_app, Hc, IH.
Qed.

(** *** When every sleep is accepted, the loop is the one without raises *)

Lemma sleep_accepted sleep_limit seconds :
  0 ≤ seconds → seconds ≤ sleep_limit → sleep sleep_limit seconds = emit (Sleep seconds).
Proof.
  intros H0 Hl. unfold sleep.
  replace (seconds <? 0) with false by (symmetry; apply Z.ltb_ge; lia).
  now replace (sleep_limit <? seconds) with false by (symmetry; apply Z.ltb_ge; lia).
Qed.

Section Accepted.

Variable config : Config.
Variable contract : option Contract.
Variables poll_interval block_range sleep_limit : Z.
Hypothesis poll_nonneg : 0 ≤ poll_interval.
Hypothesis poll_within : poll_interval * 2 ≤ sleep_limit.

Lemma scan_attempt_checked_eq w last :
  scan_attempt_checked config poll_interval block_range sleep_limit w last
  = scan_attempt config poll_interval block_range w last.
Proof.
  unfold scan_attempt_checked, scan_attempt.
  now rewrite !sleep_accepted by lia.
Qed.

Lemma cycle_checked_eq w last s :
  listen_cycle_checked config poll_interval block_range sleep_limit w last s
  = listen_cycle config poll_interval block_range w last s.
Proof.
  unfold listen_cycle_checked, listen_cycle.
  rewrite scan_attempt_checked_eq, sleep_accepted by lia.
  now destruct (scan_attempt config poll_interval block_range w last s)
    as [[[e|[[] v]] s1] t1].
Qed.

Lemma loop_checked_eq ws last s :
  listen_loop_checked config poll_interval block_range sleep_limit ws last s
  = listen_loop config poll_interval block_range ws last s.
Proof.
  revert last s. induction ws as [|w rest IH]; intros last s; [reflexivity|].
  simpl. unfold bind. rewrite cycle_checked_eq.
  destruct (listen_cycle config poll_interval block_range w last s) as [[[e|v] s1] t1];
    [reflexivity|]. now rewrite IH.
Qed.

Lemma listen_checked_eq initial_reply ws s :
  listen_checked config contract poll_interval block_range sleep_limit initial_reply ws s
  = listen config contract poll_interval block_range initial_reply ws s.
Proof.
  unfold listen_checked, listen. destruct contract as [k|]; [|reflexivity].
  destruct initial_reply as [latest|]; [|reflexivity].
  unfold bind, logging, emit; simpl. now rewrite loop_checked_eq.
Qed.

End Accepted.

(** *** A negative poll interval *)

Lemma cycle_checked_negative config poll_interval block_range sleep_limit w last s :
  poll_interval < 0 →
  let run := listen_cycle_checked config poll_interval block_range sleep_limit w last s in
  result_of run = inl ValueError ∧ sleeps (trace_of run) = [].
Proof.
  intros Hneg run. subst run.
  assert (H1 : sleep sleep_limit poll_interval = raise ValueError).
  { unfold sleep. now replace (poll_interval <? 0) with true by (symmetry; apply Z.ltb_lt; lia). }
  assert (H2 : sleep sleep_limit (poll_interval * 2) = raise ValueError).
  { unfold sleep.
    now replace (poll_interval * 2 <? 0) with true by (symmetry; apply Z.ltb_lt; lia). }
  unfold listen_cycle_checked, scan_attempt_checked. rewrite H1, H2.
  unfold bind, logging, emit, ret, raise. simpl.
  destruct (latest_block_reply w) as [latest_block|]; simpl.
  - destruct (from_block_of last >? latest_block); simpl.
    + split; [reflexivity|]. unfold trace_of; simpl.
      unfold handler_log. now destruct (is_web3_error ValueError).
    + destruct (get_logs_reply w) as [e|event_filter]; simpl.
      * split; [reflexivity|]. unfold trace_of; simpl.
        unfold handler_log. now destruct (is_web3_error e).
      * pose proof (process_events_no_sleep config event_filter s) as Hs.
        destruct (process_events config event_filter s) as [[[e|[]] s1] t1];
          unfold result_of, trace_of in *; simpl in *; (split; [reflexivity|]).
        -- rewrite sleeps_app, Hs. simpl. unfold handler_log. now destruct (is_web3_error e).
        -- now rewrite !app_nil_r.
  - split; [reflexivity|]. unfold trace_of; simpl.
    unfold handler_log. now destruct (is_web3_error ValueError).
Qed.

(** X5: with a poll interval that [time.sleep] accepts, not negative and
    its double within the limit of the platform, the loop runs through every
    iteration and sleeps exactly once in each: for twice the poll interval
    when the height could not be read and for the poll interval otherwise,
    whatever else happens in the iteration. *)
Theorem X5_one_sleep_per_iteration config poll_interval block_range sleep_limit ws last s :
  0 ≤ poll_interval →
  poll_interval * 2 ≤ sleep_limit →
  let run := listen_loop_checked config poll_interval block_range sleep_limit ws last s in
  sleeps (trace_of run) = map (cycle_sleep poll_interval) ws
  ∧ ∃ v, result_of run = inr v.
Proof.
  intros H0 Hl run. subst run. rewrite loop_checked_eq by done. split.
  - apply loop_sleeps.
  - apply loop_returns.
Qed.

Lemma X5_one_sleep_per_iteration_witness :
  let outage := {| latest_block_reply := None; get_logs_reply := inr [] |} in
  let idle := {| latest_block_reply := Some 999; get_logs_reply := inr [] |} in
  let failing := {| latest_block_reply := Some 1050; get_logs_reply := inl StaleBlockchain |} in
  0 ≤ 15
  ∧ sleeps (trace_of (listen_loop_checked CONFIG 15 100 9223372036
                        [outage; idle; failing] 999 ∅))
    = [30; 15; 15].
Proof.
  intros outage idle failing. split; [lia|].
  exact (proj1 (X5_one_sleep_per_iteration CONFIG 15 100 9223372036
                  [outage; idle; failing] 999 ∅ ltac:(lia) ltac:(lia))).
Defined.

(** What an iteration does to the checkpoint and what it fetches. *)
Lemma cycle_outcome config poll_interval block_range w last s :
  0 ≤ block_range →
  let run := listen_cycle config poll_interval block_range w last s in
  (result_of run = inr last
   ∧ (fetched_ranges (trace_of run) = []
      ∨ ∃ latest_block,
          latest_block_reply w = Some latest_block ∧ last < latest_block
          ∧ fetched_ranges (trace_of run)
            = [(last + 1, to_block_of block_range last latest_block)]))
  ∨ (∃ latest_block,
       latest_block_reply w = Some latest_block ∧ last < latest_block
       ∧ result_of run = inr (to_block_of block_range last latest_block)
       ∧ fetched_ranges (trace_of run)
         = [(last + 1, to_block_of block_range last latest_block)]).
Proof.
  intros Hrange run. subst run.
  destruct (cycle_paths w last) as [Hl|H Hl Hle|H e Hl Hlt Hg|H event_filter Hl Hlt Hg].
  - left. now rewrite cycle_rpc_failure; auto.
  - left. now rewrite (cycle_no_new_blocks _ _ _ _ _ _ H); auto.
  - left. pose proof (cycle_fetched_range config poll_interval block_range w last s H Hl Hlt).
    rewrite (cycle_fetch_failed _ _ _ _ _ _ H e) in * by done. split; [done|].
    right. now exists H.
  - pose proof (cycle_fetched_range config poll_interval block_range w last s H Hl Hlt) as Hf.
    rewrite (cycle_scanned _ _ _ _ _ _ H event_filter) in * by done.
    destruct (process_events config event_filter s) as [[[e|[]] s1] t1].
    + left. split; [done|]. right. now exists H.
    + right. now exists H.
Qed.

(** A run of the loop, cut after its first iteration. *)
Lemma loop_cons config poll_interval block_range w rest last s :
  ∃ v s1 t1 r s2 t2,
    listen_cycle config poll_interval block_range w last s = (inr v, s1, t1)
    ∧ listen_loop config poll_interval block_range rest v s1 = (r, s2, t2)
    ∧ listen_loop config poll_interval block_range (w :: rest) last s = (r, s2, t1 ++ t2).
Proof.
  destruct (cycle_returns config poll_interval block_range w last s) as [v Hv].
  simpl. unfold bind.
  destruct (listen_cycle config poll_interval block_range w last s) as [[r1 s1] t1].
  unfold result_of in Hv; simpl in Hv. subst r1.
  destruct (listen_loop config poll_interval block_range rest v s1) as [[r s2] t2] eqn:Hrest.
  now exists v, s1, t1, r, s2, t2.
Qed.

(** X6: with a window that is not negative, every range a run of the loop
    asks of [get_logs] starts above the checkpoint the run started with, is
    not empty, spans at most [block_range] blocks beyond its first, and ends
    at or below a height the node reported in the run. *)
Theorem X6_fetched_ranges_bounded config poll_interval block_range ws last s from_block to_block :
  0 ≤ block_range →
  (from_block, to_block)
    ∈ fetched_ranges (trace_of (listen_loop config poll_interval block_range ws last s)) →
  last < from_block
  ∧ from_block ≤ to_block
  ∧ to_block - from_block ≤ block_range
  ∧ ∃ w latest_block,
      w ∈ ws ∧ latest_block_reply w = Some latest_block ∧ to_block ≤ latest_block.
Proof.
  intros Hrange. revert last s. induction ws as [|w rest IH]; intros last s Hin.
  - now apply elem_of_nil in Hin.
  - destruct (loop_cons config poll_interval block_range w rest last s)
      as (v & s1 & t1 & r & s2 & t2 & Hc & Hrest & Hall).
    rewrite Hall in Hin. unfold trace_of in Hin; simpl in Hin.
    rewrite fetched_ranges_app in Hin.
    pose proof (cycle_outcome config poll_interval block_range w last s Hrange) as Ho.
    rewrite Hc in Ho. unfold result_of, trace_of in Ho; simpl in Ho.
    assert (Hv : last ≤ v).
    { destruct Ho as [[[= ->] _]|(H & _ & Hlt & [= ->] & _)]; [lia|].
      unfold to_block_of, from_block_of. lia. }
    apply elem_of_app in Hin as [Hin|Hin].
    + assert (∃ H, latest_block_reply w = Some H ∧ last < H
                   ∧ t1 ≠ [] ∧ fetched_ranges t1 = [(last + 1, to_block_of block_range last H)])
        as (H & Hl & Hlt & _ & Hf).
      { destruct Ho as [[_ [Hf|(H & Hl & Hlt & Hf)]]|(H & Hl & Hlt & _ & Hf)].
        - rewrite Hf in Hin. now apply elem_of_nil in Hin.
        - exists H. repeat split; try done. intros ->. discriminate.
        - exists H. repeat split; try done. intros ->. discriminate. }
      rewrite Hf in Hin. apply list_elem_of_singleton in Hin. injection Hin as -> ->.
      unfold to_block_of, from_block_of. repeat split; try lia.
      exists w, H. repeat split; [apply list_elem_of_here | done | lia].
    + assert (Hin' : (from_block, to_block)
                     ∈ fetched_ranges
                         (trace_of (listen_loop config poll_interval block_range rest v s1)))
        by now rewrite Hrest.
      destruct (IH v s1 Hin') as (H1 & H2 & H3 & w' & H & Hw & Hl & Hle).
      repeat split; try lia. exists w', H. repeat split; [now apply list_elem_of_further|done|done].
Qed.

Lemma X6_fetched_ranges_bounded_witness :
  let w1 := {| latest_block_reply := Some 2000; get_logs_reply := inl StaleBlockchain |} in
  let w2 := {| latest_block_reply := Some 1050; get_logs_reply := inr [] |} in
  (1000, 1050) ∈ fetched_ranges (trace_of (listen_loop CONFIG 15 100 [w1; w2] 999 ∅))
  ∧ 999 < 1000 ∧ 1000 ≤ 1050 ∧ 1050 - 1000 ≤ 100.
Proof.
  intros w1 w2.
  assert (Hin : (1000, 1050)
                ∈ fetched_ranges (trace_of (listen_loop CONFIG 15 100 [w1; w2] 999 ∅))).
  { apply list_elem_of_further, list_elem_of_here. }
  split; [exact Hin|].
  destruct (X6_fetched_ranges_bounded CONFIG 15 100 [w1; w2] 999 ∅ 1000 1050
              ltac:(lia) Hin) as (H1 & H2 & H3 & _).
  repeat split; assumption.
Defined.

(** X7: with a window that is not negative, no block is skipped: every
    block above the checkpoint the loop started with and up to the checkpoint
    it has reached lies in a range that was asked of [get_logs]. *)
Theorem X7_no_block_skipped config poll_interval block_range ws last s v block :
  0 ≤ block_range →
  result_of (listen_loop config poll_interval block_range ws last s) = inr v →
  last < block ≤ v →
  ∃ from_block to_block,
    (from_block, to_block)
      ∈ fetched_ranges (trace_of (listen_loop config poll_interval block_range ws last s))
    ∧ from_block ≤ block ≤ to_block.
Proof.
  intros Hrange. revert last s. induction ws as [|w rest IH]; intros last s Hres Hb.
  - unfold result_of in Hres; simpl in Hres. injection Hres as <-. lia.
  - destruct (loop_cons config poll_interval block_range w rest last s)
      as (v1 & s1 & t1 & r & s2 & t2 & Hc & Hrest & Hall).
    rewrite Hall in *. unfold result_of in Hres; unfold trace_of; simpl in *. subst r.
    pose proof (cycle_outcome config poll_interval block_range w last s Hrange) as Ho.
    rewrite Hc in Ho. unfold result_of, trace_of in Ho; simpl in Ho.
    destruct (Z_le_gt_dec block v1) as [Hle|Hgt].
    + destruct Ho as [[[= ->] _]|(H & Hl & Hlt & [= ->] & Hf)]; [lia|].
      exists (last + 1), (to_block_of block_range last H).
      rewrite fetched_ranges_app, Hf. split; [|lia].
      apply elem_of_app. left. apply list_elem_of_here.
    + destruct (IH v1 s1) as (f & t & Hin & Hft).
      * now rewrite Hrest.
      * lia.
      * exists f, t. rewrite Hrest in Hin. unfold trace_of in Hin; simpl in Hin.
        rewrite fetched_ranges_app. split; [|done]. apply elem_of_app. now right.
Qed.

Lemma X7_no_block_skipped_witness :
  let w1 := {| latest_block_reply := Some 1050; get_logs_reply := inr [] |} in
  let w2 := {| latest_block_reply := Some 1300; get_logs_reply := inr [] |} in
  result_of (listen_loop CONFIG 15 100 [w1; w2] 999 ∅) = inr 1151
  ∧ ∃ from_block to_block,
      (from_block, to_block)
        ∈ fetched_ranges (trace_of (listen_loop CONFIG 15 100 [w1; w2] 999 ∅))
      ∧ from_block ≤ 1051 ≤ to_block.
Proof.
  intros w1 w2. split; [reflexivity|].
  exact (X7_no_block_skipped CONFIG 15 100 [w1; w2] 999 ∅ 1151 1051
           ltac:(lia) eq_refl ltac:(lia)).
Defined.

(** ** Edge cases of the validator *)

Lemma dict_get_missing members key default :
  (∀ v, (key, v) ∉ members) → dict_get members key default = default.
Proof.
  revert default. induction members as [|[k v] rest IH]; intros default Hno; [reflexivity|].
  simpl. case_bool_decide as Hk.
  - subst k. destruct (Hno v). apply list_elem_of_here.
  - apply IH. intros v' Hin. apply (Hno v'). now apply list_elem_of_further.
Qed.

(** X8: with the oracle configured, the validator raises exactly when the
    POST raises something other than a RequestException, or the answer has
    status 200 and its body either fails to decode with something other than
    a RequestException or decodes to a value that is not an object, which
    gives an AttributeError.  For any other status the body is not looked
    at. *)
Theorem X8_when_the_validator_raises config event reply s target e :
  oracle_url config = Some target → target ≠ EmptyString →
  result_of (_validate_with_oracle config event reply s) = inl e
  ↔ (reply = PostRaises e ∧ is_request_exception e = false)
    ∨ (∃ r, reply = PostReturns r ∧ status_code r = 200
            ∧ ((json_body r = JsonRaises e ∧ is_request_exception e = false)
               ∨ (∃ j, json_body r = JsonValue j ∧ (∀ members, j ≠ JObj members)
                       ∧ e = AttributeError))).
Proof.
  intros Hurl Hne. unfold _validate_with_oracle. rewrite Hurl.
  destruct target as [|c target]; [done|].
  unfold except_request_exception, check_oracle_response, bind, logging, emit, ret, raise,
    result_of. simpl.
  destruct reply as [e0|r]; simpl.
  - destruct (is_request_exception e0) eqn:He0; simpl; split.
    + discriminate.
    + intros [[? ?]|(r' & ? & _)]; simplify_eq; congruence.
    + intros [= ->]. now left.
    + intros [[? ?]|(r' & ? & _)]; now simplify_eq.
  - destruct (status_code r =? 200) eqn:Hs.
    + apply Z.eqb_eq in Hs.
      destruct (json_body r) as [e0|j] eqn:Hj; simpl.
      * destruct (is_request_exception e0) eqn:He0; simpl; split.
        -- discriminate.
        -- intros [[? ?]|(r' & ? & _ & [[Hb ?]|(j & Hb & _)])]; simplify_eq; congruence.
        -- intros [= ->]. right. exists r. repeat split; try done. now left.
        -- intros [[? ?]|(r' & ? & _ & [[Hb ?]|(j & Hb & _)])]; simplify_eq; congruence.
      * assert (Hother : (∀ members, j ≠ JObj members) →
                  @inl exn bool AttributeError = inl e
                  ↔ (PostReturns r = PostRaises e ∧ is_request_exception e = false)
                    ∨ (∃ r0, PostReturns r = PostReturns r0 ∧ status_code r0 = 200
                         ∧ ((json_body r0 = JsonRaises e ∧ is_request_exception e = false)
                            ∨ (∃ j0, json_body r0 = JsonValue j0
                                     ∧ (∀ members, j0 ≠ JObj members)
                                     ∧ e = AttributeError)))).
        { intros Hno. split.
          - intros [= <-]. right. exists r. repeat split; try done. right. now exists j.
          - intros [[? ?]|(r' & ? & _ & [[Hb ?]|(j0 & Hb & _ & ->)])]; simplify_eq;
              congruence. }
        destruct j as [|b|z|text|items|members]; simpl; try (now apply Hother).
        destruct (truthy (dict_get members "isValid" (JBool false))); simpl; split;
          try discriminate;
          intros [[? ?]|(r' & ? & _ & [[Hb ?]|(j0 & Hb & Hno & _)])]; simplify_eq;
          try congruence;
          rewrite Hj in Hb; injection Hb as <-; now destruct (Hno members).
    + apply Z.eqb_neq in Hs. simpl. split; [discriminate|].
      intros [[? ?]|(r' & ? & Hs' & _)]; simplify_eq.
Qed.

Lemma X8_when_the_validator_raises_witness :
  result_of (_validate_with_oracle CONFIG sample_event not_an_object ∅) = inl AttributeError.
Proof.
  apply (X8_when_the_validator_raises CONFIG sample_event not_an_object ∅
           "https://api.mock-oracle.io/validate-tx" AttributeError eq_refl);
    [discriminate|].
  right. eexists. repeat split. right. exists (JArr []). repeat split. discriminate.
Defined.

(** X9: with the oracle configured, a status 200 answer whose body is a
    JSON object without an [isValid] member, the empty object among them, is
    a rejection: the validator returns [False], it does not raise, and the
    pipeline leaves the event unprocessed with its warning. *)
Theorem X9_missing_isValid_rejects config event r members s target :
  oracle_url config = Some target → target ≠ EmptyString →
  status_code r = 200 →
  json_body r = JsonValue (JObj members) →
  (∀ v, ("isValid", v) ∉ members) →
  result_of (_validate_with_oracle config event (PostReturns r) s) = inr false
  ∧ state_of (_process_event config event (PostReturns r) s) = s
  ∧ result_of (_process_event config event (PostReturns r) s) = inr tt.
Proof.
  intros Hurl Hne Hs Hj Hno.
  assert (Hv : result_of (_validate_with_oracle config event (PostReturns r) s) = inr false).
  { unfold _validate_with_oracle. rewrite Hurl. destruct target as [|c target]; [done|].
    unfold except_request_exception, check_oracle_response, bind, logging, emit, ret,
      result_of. simpl.
    rewrite Hs, Hj. simpl. now rewrite (dict_get_missing members "isValid" _ Hno). }
  split; [exact Hv|]. split.
  - apply process_not_confirmed. now rewrite Hv.
  - apply process_event_returns. now exists false.
Qed.

Lemma X9_missing_isValid_rejects_witness :
  let r := {| status_code := 200; json_body := JsonValue (JObj []); text := "{}" |} in
  result_of (_validate_with_oracle CONFIG sample_event (PostReturns r) ∅) = inr false.
Proof.
  intros r.
  refine (proj1 (X9_missing_isValid_rejects CONFIG sample_event r [] ∅
                   "https://api.mock-oracle.io/validate-tx" eq_refl _ eq_refl eq_refl _)).
  - discriminate.
  - intros v Hin. now apply elem_of_nil in Hin.
Defined.

(** ** The key of the ProcessedSet *)

Lemma nibble_hi b : nibble (hex_digit (Byte.to_N b / 16)) = Some (Byte.to_N b / 16)%N.
Proof. destruct b; reflexivity. Qed.

Lemma nibble_lo b : nibble (hex_digit (Byte.to_N b mod 16)) = Some (Byte.to_N b mod 16)%N.
Proof. destruct b; reflexivity. Qed.

Lemma byte_of_nibbles b : Byte.of_N (Byte.to_N b / 16 * 16 + Byte.to_N b mod 16) = Some b.
Proof. destruct b; reflexivity. Qed.

Lemma unhex_hex bs : unhex (hex bs) = Some bs.
Proof.
  induction bs as [|b rest IH]; [reflexivity|].
  cbn [hex unhex]. now rewrite nibble_hi, nibble_lo, IH, byte_of_nibbles.
Qed.

(** X10: the hexadecimal key under which an event is remembered determines
    the bytes of its transaction hash: two events have the same key if and
    only if they have the same transaction hash, so the pipeline takes for a
    duplicate only a log of the same transaction. *)
Theorem X10_key_determines_hash e1 e2 :
  tx_hash_of e1 = tx_hash_of e2 ↔ transactionHash e1 = transactionHash e2.
Proof.
  unfold tx_hash_of. split; [|now intros ->].
  intros Heq. apply (f_equal unhex) in Heq. rewrite !unhex_hex in Heq. congruence.
Qed.

(** ** The connector *)

Lemma connect_handle w c :
  web3 (connect w c).1 ≠ None ↔ new_web3 w = None ∧ probe_reply w = true.
Proof.
  unfold connect. destruct (new_web3 w) as [e|]; [|destruct (probe_reply w)]; simpl;
    split; try done; intros [? ?]; done.
Qed.

(** X11: [get_latest_block_number] returns a height exactly when the node
    answers the reading with it and the connector either holds a handle that
    answers the first probe, or gets one from the single reconnection it then
    attempts, answering both the probe of the reconnection and the one after
    it.  A returned height leaves the connector with a handle, and a connector
    that answers the first probe is left as it was. *)
Theorem X11_latest_block_number w c n :
  let call := get_latest_block_number w c in
  let live := web3 c ≠ None ∧ first_probe w = true in
  (call.1.1 = Some n
   ↔ block_number_reply w = inr n
     ∧ (live
        ∨ (¬ live ∧ new_web3 (reconnect w) = None ∧ probe_reply (reconnect w) = true
           ∧ second_probe w = true)))
  ∧ (call.1.1 = Some n → web3 call.1.2 ≠ None)
  ∧ (live → call.1.2 = c).
Proof.
  intros call live. subst call live.
  unfold get_latest_block_number, is_connected, read_block_number.
  destruct (web3 c) as [handle|] eqn:Hc; [destruct (first_probe w) eqn:Hp|].
  - destruct (block_number_reply w) as [e|m]; simpl; rewrite ?Hc;
      repeat split; try done; try naive_solver.
  - pose proof (connect_handle (reconnect w) c) as Hh.
    destruct (connect (reconnect w) c) as [c1 t2]. simpl in Hh.
    destruct (web3 c1) as [handle1|] eqn:Hc1; [destruct (second_probe w) eqn:Hp2|].
    + destruct (block_number_reply w) as [e|m]; simpl; rewrite ?Hc1;
        repeat split; try done; try naive_solver.
    + simpl. repeat split; try done; naive_solver.
    + simpl. repeat split; try done; naive_solver.
  - pose proof (connect_handle (reconnect w) c) as Hh.
    destruct (connect (reconnect w) c) as [c1 t2]. simpl in Hh.
    destruct (web3 c1) as [handle1|] eqn:Hc1; [destruct (second_probe w) eqn:Hp2|].
    + destruct (block_number_reply w) as [e|m]; simpl; rewrite ?Hc1;
        repeat split; try done; try naive_solver.
    + simpl. repeat split; try done; naive_solver.
    + simpl. repeat split; try done; naive_solver.
Qed.

(** ** Construction and start of the listener *)

Lemma setup_without_handle config c w :
  web3 c = None →
  _setup_source_contract config c w = (None, [NodeLog ERROR CannotSetupContract]).
Proof. intros Hc. unfold _setup_source_contract, is_connected. now rewrite Hc. Qed.

(** X12: a constructed listener has a contract exactly when the connection
    made at construction succeeded with a positive probe, the probe of the
    set-up was positive too, and neither the checksum of the address nor the
    making of the contract object raised; the contract then carries the
    checksummed address and the configured ABI.  The ProcessedSet starts
    empty, and a listener with a contract has a connector with a handle. *)
Theorem X12_contract_needs_live_node config boot setup k :
  let l := (new_listener config boot setup).1 in
  (bridge_contract l = Some k
   ↔ new_web3 boot = None ∧ probe_reply boot = true ∧ setup_probe setup = true
     ∧ ∃ checksum, checksum_reply setup = inr checksum ∧ contract_reply setup = None
         ∧ k = {| address := checksum; abi := bridge_contract_abi config |})
  ∧ processed_txs l = ∅
  ∧ (bridge_contract l ≠ None → web3 (source_connector l) ≠ None).
Proof.
  intros l. subst l.
  unfold new_listener, new_connector, connect, _setup_source_contract, is_connected.
  destruct (new_web3 boot) as [e|]; [|destruct (probe_reply boot)]; simpl;
    try (repeat split; try done; naive_solver).
  destruct (setup_probe setup); simpl; [|repeat split; try done; naive_solver].
  destruct (checksum_reply setup) as [e|checksum]; simpl;
    [repeat split; try done; naive_solver|].
  destruct (contract_reply setup) as [e|]; simpl; repeat split; try done; naive_solver.
Qed.

(** X13: a listener constructed while the node cannot be reached never
    listens: whatever the node answers afterwards, [listen] writes its one
    CRITICAL line and returns, without asking the node for a height, without
    fetching and without sleeping; so does [main]. *)
Theorem X13_down_at_construction_never_listens env config boot setup initial ws
    poll_interval block_range :
  new_web3 boot ≠ None ∨ probe_reply boot = false →
  let l := (new_listener config boot setup).1 in
  listener_listen l poll_interval block_range initial ws
  = ((inr None, ∅, [Log CRITICAL ContractNotInitialized]), source_connector l, [])
  ∧ listening (main env boot setup initial ws)
    = (inr None, ∅, [Log CRITICAL ContractNotInitialized])
  ∧ polling (main env boot setup initial ws) = [].
Proof.
  intros Hdown l.
  assert (Hnone : ∀ cfg, bridge_contract (new_listener cfg boot setup).1 = None
                         ∧ processed_txs (new_listener cfg boot setup).1 = ∅).
  { intros cfg. unfold new_listener, new_connector, connect.
    destruct Hdown as [Hraise|Hprobe].
    - destruct (new_web3 boot) as [e|]; [|done]. now rewrite setup_without_handle.
    - rewrite Hprobe. destruct (new_web3 boot) as [e|]; now rewrite setup_without_handle. }
  split; [|split].
  - subst l. destruct (Hnone config) as [Hc Hp]. unfold listener_listen.
    now rewrite Hc, Hp.
  - unfold main. destruct (Hnone (config_from_env env)) as [Hc Hp].
    destruct (new_listener (config_from_env env) boot setup) as [l0 t0]. simpl in *.
    unfold listener_listen. now rewrite Hc, Hp.
  - unfold main. destruct (Hnone (config_from_env env)) as [Hc Hp].
    destruct (new_listener (config_from_env env) boot setup) as [l0 t0]. simpl in *.
    unfold listener_listen. now rewrite Hc.
Qed.

Lemma X13_down_at_construction_never_listens_witness :
  let boot := {| new_web3 := None; probe_reply := false |} in
  let setup := {| setup_probe := true; checksum_reply := inr "0x1234";
                  contract_reply := None |} in
  let up := {| first_probe := true; reconnect := {| new_web3 := None; probe_reply := true |};
               second_probe := true; block_number_reply := inr 1000 |} in
  let env := {| SOURCE_CHAIN_RPC_URL := None; DEST_CHAIN_RPC_URL := None;
                ORACLE_API_KEY := None |} in
  listening (main env boot setup up [{| node := up; logs := inr [(sample_event, accepting)] |}])
  = (inr None, ∅, [Log CRITICAL ContractNotInitialized]).
Proof.
  intros boot setup up env.
  exact (proj1 (proj2 (X13_down_at_construction_never_listens env CONFIG boot setup up
                         [{| node := up; logs := inr [(sample_event, accepting)] |}]
                         15 100 (or_intror eq_refl)))).
Defined.

Lemma listen_start config contract poll_interval block_range initial_reply ws s :
  0 ≤ block_range →
  let run := listen config contract poll_interval block_range initial_reply ws s in
  (result_of run = inr None ↔ contract = None ∨ initial_reply = None)
  ∧ (result_of run = inr None →
     state_of run = s ∧ fetched_ranges (trace_of run) = [] ∧ sleeps (trace_of run) = [])
  ∧ (∀ k latest, contract = Some k → initial_reply = Some latest →
     ∃ v, result_of run = inr (Some v) ∧ latest - 1 ≤ v).
Proof.
  intros Hrange run. subst run. unfold listen, logging, bind, emit, ret.
  destruct contract as [k|]; simpl.
  - destruct initial_reply as [latest|]; simpl.
    + destruct (loop_returns config poll_interval block_range ws (latest - 1) s) as [v Hv].
      pose proof (loop_monotone config poll_interval block_range Hrange ws (latest - 1) s v Hv).
      destruct (listen_loop config poll_interval block_range ws (latest - 1) s)
        as [[r s1] t1].
      unfold result_of in Hv; simpl in Hv. subst r.
      unfold result_of, state_of, trace_of; simpl. repeat split; try done.
      * intros [?|?]; done.
      * intros k' latest' _ [= <-]. now exists v.
    + unfold result_of, state_of, trace_of; simpl. repeat split; try done; auto.
  - unfold result_of, state_of, trace_of; simpl. repeat split; try done; auto.
Qed.

(** X14: with a window that is not negative and a poll interval that
    [time.sleep] accepts, [listen] gives up only at its start, when the
    contract is missing or the first height cannot be read, and then leaves
    the ProcessedSet as it was, fetches nothing and never sleeps; once in the
    loop it raises nothing and its checkpoint is never below the first height
    less one. *)
Theorem X14_listen_gives_up_only_at_start config contract poll_interval block_range
    sleep_limit initial_reply ws s :
  0 ≤ block_range →
  0 ≤ poll_interval →
  poll_interval * 2 ≤ sleep_limit →
  let run := listen_checked config contract poll_interval block_range sleep_limit
               initial_reply ws s in
  (result_of run = inr None ↔ contract = None ∨ initial_reply = None)
  ∧ (result_of run = inr None →
     state_of run = s ∧ fetched_ranges (trace_of run) = [] ∧ sleeps (trace_of run) = [])
  ∧ (∀ k latest, contract = Some k → initial_reply = Some latest →
     ∃ v, result_of run = inr (Some v) ∧ latest - 1 ≤ v).
Proof.
  intros Hrange H0 Hl run. subst run. rewrite listen_checked_eq by done.
  now apply listen_start.
Qed.

Lemma X14_listen_gives_up_only_at_start_witness :
  let w := {| latest_block_reply := Some 1050; get_logs_reply := inr [] |} in
  0 ≤ 100
  ∧ ∃ v, result_of (listen_checked CONFIG (Some sample_contract) 15 100 9223372036
                      (Some 1000) [w] ∅)
         = inr (Some v) ∧ 1000 - 1 ≤ v.
Proof.
  intros w. split; [lia|].
  exact (proj2 (proj2 (X14_listen_gives_up_only_at_start CONFIG (Some sample_contract)
                         15 100 9223372036 (Some 1000) [w] ∅
                         ltac:(lia) ltac:(lia) ltac:(lia)))
           sample_contract 1000 eq_refl eq_refl).
Defined.

(** X19: with a negative poll interval the listener does not survive its
    first iteration: whatever the node answers, the sleep after the [try]
    raises ValueError out of [listen], and the listener has not slept once. *)
Theorem X19_negative_poll_interval_ends_listen config poll_interval block_range
    sleep_limit k latest w rest s :
  poll_interval < 0 →
  let run := listen_checked config (Some k) poll_interval block_range sleep_limit
               (Some latest) (w :: rest) s in
  result_of run = inl ValueError
  ∧ sleeps (trace_of run) = []
  ∧ (length (fetched_ranges (trace_of run)) ≤ 1)%nat.
Proof.
  intros Hneg run. subst run.
  destruct (cycle_checked_negative config poll_interval block_range sleep_limit w
              (latest - 1) s Hneg) as [Hr Hs].
  assert (Hf : (length (fetched_ranges
                          (trace_of (listen_cycle_checked config poll_interval block_range
                                       sleep_limit w (latest - 1) s))) ≤ 1)%nat).
  { unfold listen_cycle_checked, scan_attempt_checked, sleep.
    replace (poll_interval <? 0) with true by (symmetry; apply Z.ltb_lt; lia).
    replace (poll_interval * 2 <? 0) with true by (symmetry; apply Z.ltb_lt; lia).
    unfold bind, logging, emit, ret, raise. simpl.
    destruct (latest_block_reply w) as [latest_block|]; simpl.
    - destruct (from_block_of (latest - 1) >? latest_block); simpl.
      + unfold trace_of; simpl. unfold handler_log.
        destruct (is_web3_error ValueError); simpl; lia.
      + destruct (get_logs_reply w) as [e|event_filter]; simpl.
        * unfold trace_of; simpl. unfold handler_log.
          destruct (is_web3_error e); simpl; lia.
        * pose proof (process_events_no_fetch config event_filter s) as Hn.
          destruct (process_events config event_filter s) as [[[e|[]] s1] t1];
            unfold trace_of in *; simpl in *; rewrite !fetched_ranges_app, Hn; simpl.
          -- unfold handler_log. destruct (is_web3_error e); simpl; lia.
          -- lia.
    - unfold trace_of; simpl. unfold handler_log.
      destruct (is_web3_error ValueError); simpl; lia. }
  unfold listen_checked. cbn [listen_loop_checked]. unfold logging, bind, emit, ret.
  destruct (listen_cycle_checked config poll_interval block_range sleep_limit w
              (latest - 1) s) as [[r s1] t1].
  unfold result_of, trace_of in *; simpl in *. subst r. simpl.
  repeat split; assumption.
Qed.

Lemma X19_negative_poll_interval_ends_listen_witness :
  let w := {| latest_block_reply := Some 1050; get_logs_reply := inr [] |} in
  -1 < 0
  ∧ result_of (listen_checked CONFIG (Some sample_contract) (-1) 100 9223372036
                 (Some 1000) [w; w] ∅)
    = inl ValueError.
Proof.
  intros w. split; [lia|].
  exact (proj1 (X19_negative_poll_interval_ends_listen CONFIG (-1) 100 9223372036
                  sample_contract 1000 w [w] ∅ ltac:(lia))).
Defined.

Lemma connect_first_effect w c t :
  head ((connect w c).2 ++ t) = Some (NewWeb3 (rpc_url c)).
Proof.
  unfold connect. now destruct (new_web3 w) as [e|]; [|destruct (probe_reply w)].
Qed.

(** X15: a variable that is set to the empty string is not replaced by the
    default: when SOURCE_CHAIN_RPC_URL is set but empty, [main] warns that
    the public default RPCs will be used, and yet the connector is built on
    the empty URL. *)
Theorem X15_empty_variable_is_not_defaulted env boot setup initial ws :
  SOURCE_CHAIN_RPC_URL env = Some EmptyString →
  warned (main env boot setup initial ws) = true
  ∧ src_rpc_url (source_chain (config_from_env env)) = EmptyString
  ∧ head (construction (main env boot setup initial ws)) = Some (NewWeb3 EmptyString).
Proof.
  intros Hsrc. unfold main.
  assert (Hc : head (new_listener (config_from_env env) boot setup).2
               = Some (NewWeb3 EmptyString)).
  { unfold new_listener, new_connector.
    pose proof (connect_first_effect boot
                  {| rpc_url := src_rpc_url (source_chain (config_from_env env));
                     chain_name := src_name (source_chain (config_from_env env));
                     web3 := None |}) as Hfirst.
    destruct (connect boot _) as [c t1]. simpl in Hfirst.
    destruct (_setup_source_contract (config_from_env env) c setup) as [k t2]. simpl.
    rewrite Hfirst. now rewrite Hsrc. }
  destruct (new_listener (config_from_env env) boot setup) as [l t1]. simpl in Hc.
  destruct (listener_listen l 15 100 initial ws) as [[run c] t2]. simpl.
  repeat split; [|now rewrite Hsrc|exact Hc].
  now rewrite Hsrc.
Qed.

Lemma X15_empty_variable_is_not_defaulted_witness :
  let env := {| SOURCE_CHAIN_RPC_URL := Some EmptyString;
                DEST_CHAIN_RPC_URL := Some "https://polygon-rpc.com";
                ORACLE_API_KEY := None |} in
  let boot := {| new_web3 := None; probe_reply := false |} in
  let setup := {| setup_probe := false; checksum_reply := inl ValueError;
                  contract_reply := None |} in
  let down := {| first_probe := false; reconnect := boot; second_probe := false;
                 block_number_reply := inl (OtherException "ConnectionError") |} in
  warned (main env boot setup down []) = true.
Proof.
  intros env boot setup down.
  exact (proj1 (X15_empty_variable_is_not_defaulted env boot setup down [] eq_refl)).
Defined.

(** ** Whole runs *)

(** X16: in a run of [listen], every invocation of the action is for a log
    the node returned together with an answer on which the validator returns
    [True], and the invocations come in the order of those logs: nothing is
    acted upon without a confirmation. *)
Theorem X16_no_action_without_confirmation config contract poll_interval block_range
    initial_reply ws s :
  let run := listen config contract poll_interval block_range initial_reply ws s in
  acted (trace_of run) `sublist_of` confirmed config ws
  ∧ ∀ tx, tx ∈ acted (trace_of run) →
      ∃ event reply,
        (event, reply) ∈ returned ws
        ∧ tx_hash_of event = tx
        ∧ validator_confirms config reply = true.
Proof.
  intros run.
  pose proof (acted_confirmed config contract poll_interval block_range initial_reply ws s)
    as Ha. fold run in Ha.
  split; [exact Ha|]. intros tx Hin.
  apply (sublist_subseteq _ _ Ha) in Hin. unfold confirmed in Hin.
  apply list_elem_of_fmap in Hin as ([event reply] & -> & Hin).
  apply list_elem_of_In, List.filter_In in Hin as [Hin Hc].
  exists event, reply. repeat split; [now apply list_elem_of_In | exact Hc].
Qed.

Lemma new_listener_starts_empty config boot setup :
  processed_txs (new_listener config boot setup).1 = ∅.
Proof.
  unfold new_listener.
  destruct (new_connector _ _ boot) as [c t1].
  now destruct (_setup_source_contract config c setup) as [k t2].
Qed.

(** X17: in a run of [main], which starts from an empty ProcessedSet, the
    set holds at every end of an iteration exactly the hashes the action was
    invoked for, and none of them was acted upon twice. *)
Theorem X17_main_processed_is_acted env boot setup initial ws :
  let run := listening (main env boot setup initial ws) in
  state_of run = list_to_set (acted (trace_of run))
  ∧ NoDup (acted (trace_of run)).
Proof.
  intros run. subst run. unfold main.
  pose proof (new_listener_starts_empty (config_from_env env) boot setup) as Hempty.
  destruct (new_listener (config_from_env env) boot setup) as [l t1]. simpl in Hempty.
  assert (Hrun : ∀ contract first cws,
            let run := listen (listener_config l) contract 15 100 first cws
                         (processed_txs l) in
            state_of run = list_to_set (acted (trace_of run)) ∧ NoDup (acted (trace_of run))).
  { intros contract first cws run.
    destruct (grown_listen (listener_config l) contract 15 100 first cws
                (processed_txs l)) as (Hs & Hd & _).
    fold run in Hs, Hd. split; [|exact Hd]. rewrite Hs, Hempty. apply union_empty_l_L. }
  unfold listener_listen.
  destruct (bridge_contract l) as [k|]; [|cbn [listening]; apply Hrun].
  destruct (get_latest_block_number initial (source_connector l)) as [[[h|] c1] t2].
  - destruct (poll_node ws c1) as [[cws c2] t3]. cbn [listening]. apply Hrun.
  - cbn [listening]. apply Hrun.
Qed.



